(** * Join-request approver: queue processor, approval worker, broadcast

    A shallow embedding of [app.py].  The asynchronous handlers are
    modelled as computations in a state-and-exception monad over a [world]
    that holds the MongoDB collections, the wall clock, the answers the
    outside world will give (one per Telegram call and one per store
    operation) and the trace of effects performed so far. *)

From stdpp Require Import gmap list sorting strings.

Local Open Scope Z_scope.

(** ** Exceptions

    The classes the program tells apart in its [except] clauses.  Every
    other [Exception] (an RPC error of another kind, a pymongo error, an
    [AttributeError]) is [OtherError]. *)

Inductive exn :=
| FloodWait (value : Z)
| UserDeactivated
| PeerIdInvalid
| ChatAdminRequired
| OtherError (msg : string).

(** [str(e)] *)
Definition str (e : exn) : string :=
  match e with
  | FloodWait _ => "FLOOD_WAIT"
  | UserDeactivated => "USER_DEACTIVATED"
  | PeerIdInvalid => "PEER_ID_INVALID"
  | ChatAdminRequired => "CHAT_ADMIN_REQUIRED"
  | OtherError msg => msg
  end.

(** ** Documents and collections *)

Record request_doc := RequestDoc {
  timestamp : Z;
  chat_id : Z;
  user_id : Z;
  user_first_name : string;
  chat_title : string;
  processed : bool;
  retries : option Z;
  approved_at : option Z;
  error : option string;
  failed : option bool
}.

Record user_doc := UserDoc {
  name : string;
  username : option string;
  last_activity : Z
}.

Record channel_doc := ChannelDoc {
  added_at : Z;
  total_approved : Z;
  active : bool
}.

Record stat_doc := StatDoc {
  stat_timestamp : Z;
  stat_chat_id : Z;
  stat_user_id : Z;
  stat_approved : bool;
  stat_error : option string
}.

(** The collections of the connected database.  [requests_queue] is keyed
    by the [_id] the store assigns, the other two keyed collections by
    their unique index. *)
Record database := Database {
  users_collection : gmap Z user_doc;
  channels_collection : gmap Z channel_doc;
  stats_collection : list stat_doc;
  requests_queue : gmap positive request_doc
}.

Definition set_requests_queue (q : gmap positive request_doc) (d : database) : database :=
  Database (users_collection d) (channels_collection d) (stats_collection d) q.

Definition set_users (u : gmap Z user_doc) (d : database) : database :=
  Database u (channels_collection d) (stats_collection d) (requests_queue d).

Definition set_channels (c : gmap Z channel_doc) (d : database) : database :=
  Database (users_collection d) c (stats_collection d) (requests_queue d).

Definition set_stats (s : list stat_doc) (d : database) : database :=
  Database (users_collection d) (channels_collection d) s (requests_queue d).

(** ** Effects *)

Inductive status_text :=
| Preparing
| Starting (total_users : nat)
| Broadcasting (processed_users total_users : nat) (successful failed_sends : nat)
| Completed (total_users : nat) (successful failed_sends : nat).

(** A call on the Telegram client (or on a message object). *)
Inductive call :=
| Approve (chat user : Z)
| SendPhoto (user : Z)
| SendMessage (user : Z) (first_name title : string)
| CopyTo (user : Z)
| Reply (text : status_text)
| EditText (text : status_text).

Inductive level := INFO | WARNING | ERROR.

Inductive log_msg :=
| LogAddedToQueue (first_name : string) (user : Z) (title : string)
| LogQueueFailed (e : exn)
| LogFallbackFailed (e : exn)
| LogBatch (n : nat)
| LogAfter3Retries (e : exn)
| LogQueueError (e : exn)
| LogApproved (first_name : string) (user : Z) (title : string)
| LogRateLimited (seconds chat : Z)
| LogApprovedAfterWaiting (first_name : string)
| LogCannotApprove (first_name : string) (e : exn)
| LogLacksPermission (chat : Z) (e : exn)
| LogApproveFailed (e : exn)
| LogUserSaved (first_name : string) (user : Z)
| LogSaveUserFailed (e : exn)
| LogStatsFailed (e : exn)
| LogFetched (n : nat)
| LogFetchFailed (e : exn)
| LogCopyFailed (user : Z) (e : exn).

(** What the program did, in order.  A Telegram call is recorded with the
    answer it got: [None] when it returned, [Some e] when it raised [e]. *)
Inductive event :=
| EvCall (c : call) (answer : option exn)
| EvSleep (seconds : Z)
| EvLog (l : level) (m : log_msg).

(** [db] is [None] when the connection at start-up failed: the [except]
    clause then sets every collection handle to [None] at once.
    [net] holds the answers of the coming Telegram calls and [db_faults]
    says which of the coming store operations raise; a call or operation
    beyond the end of its list succeeds. *)
Record world := World {
  db : option database;
  db_faults : list bool;
  net : list (option exn);
  clock : Z;
  trace : list event
}.

(** ** The monad *)

Definition M (A : Type) : Type := world → (A + exn) * world.

Definition ret {A} (a : A) : M A := λ w, (inl a, w).

Definition bind {A B} (m : M A) (k : A → M B) : M B :=
  λ w, match m w with
       | (inl a, w') => k a w'
       | (inr e, w') => (inr e, w')
       end.

Definition raise {A} (e : exn) : M A := λ w, (inr e, w).

(** [try: body except Exception as e: handler e].  An exception raised by
    the handler itself is not caught. *)
Definition try_except {A} (body : M A) (handler : exn → M A) : M A :=
  λ w, match body w with
       | (inl a, w') => (inl a, w')
       | (inr e, w') => handler e w'
       end.

Declare Scope prog_scope.
Delimit Scope prog_scope with prog.
Notation "'let*' x ':=' m 'in' k" := (bind m (λ x, k))
  (at level 10, x name, m at level 100, k at level 200,
   format "'[v' 'let*'  x  :=  m  'in' '/' k ']'") : prog_scope.
Notation "m ;; k" := (bind m (λ _, k))
  (at level 100, right associativity) : prog_scope.
Local Open Scope prog_scope.

Definition emit (ev : event) : M unit :=
  λ w, (inl tt, World (db w) (db_faults w) (net w) (clock w) (trace w ++ [ev])).

Definition log (l : level) (m : log_msg) : M unit := emit (EvLog l m).

(** [datetime.utcnow()] *)
Definition utcnow : M Z := λ w, (inl (clock w), w).

(** [await asyncio.sleep(seconds)]; a negative delay returns at once. *)
Definition sleep (seconds : Z) : M unit :=
  λ w, (inl tt,
        World (db w) (db_faults w) (net w) (clock w + Z.max 0 seconds)
              (trace w ++ [EvSleep seconds])).

(** A Telegram call: takes the next answer of [net]. *)
Definition telegram (c : call) : M unit :=
  λ w,
    let answer := match net w with [] => None | a :: _ => a end in
    let w' := World (db w) (db_faults w) (tail (net w)) (clock w)
                    (trace w ++ [EvCall c answer]) in
    match answer with
    | None => (inl tt, w')
    | Some e => (inr e, w')
    end.

(** An operation on the store.  A method call on an unset handle raises
    ([AttributeError]); otherwise the next entry of [db_faults] says whether
    the driver raises, and the operation [f] is applied if it does not. *)
Definition store_op {A} (f : database → A * database) : M A :=
  λ w,
    match db w with
    | None => (inr (OtherError "AttributeError"), w)
    | Some d =>
        match db_faults w with
        | true :: fs =>
            (inr (OtherError "PyMongoError"),
             World (Some d) fs (net w) (clock w) (trace w))
        | fs =>
            let '(a, d') := f d in
            (inl a, World (Some d') (tail fs) (net w) (clock w) (trace w))
        end
    end.

Definition connected : M bool := λ w, (inl (bool_decide (is_Some (db w))), w).

(** [for x in l: body x] *)
Fixpoint for_each {A} (l : list A) (body : A → M unit) : M unit :=
  match l with
  | [] => ret tt
  | x :: l' => body x ;; for_each l' body
  end.

(** [for x in l: acc = body acc x] *)
Fixpoint for_fold {A S} (l : list A) (body : S → A → M S) (acc : S) : M S :=
  match l with
  | [] => ret acc
  | x :: l' => let* acc' := body acc x in for_fold l' body acc'
  end.

(** ** Helper functions of the program *)

Definition save_user (user : Z) (first_name : string) (uname : option string) : M bool :=
  let* c := connected in
  if c then
    try_except
      (let* now := utcnow in
       store_op (λ d, (tt, set_users (<[user := UserDoc first_name uname now]> (users_collection d)) d)) ;;
       log INFO (LogUserSaved first_name user) ;;
       ret true)
      (λ e, log ERROR (LogSaveUserFailed e) ;; ret false)
  else ret false.

(** A user document as [find({}, {"user_id": 1, "name": 1, "username": 1})]
    returns it: the projection leaves [last_activity] out. *)
Record user_row := UserRow {
  row_user_id : Z;
  row_name : string;
  row_username : option string
}.

Definition project_user (u : Z * user_doc) : user_row :=
  UserRow u.1 (name u.2) (username u.2).

Definition fetch_all_users : M (list user_row) :=
  let* c := connected in
  if c then
    try_except
      (let* users := store_op (λ d, (project_user <$> map_to_list (users_collection d), d)) in
       log INFO (LogFetched (length users)) ;;
       ret users)
      (λ e, log ERROR (LogFetchFailed e) ;; ret [])
  else ret [].

Definition inc_total_approved (c : channel_doc) : channel_doc :=
  ChannelDoc (added_at c) (total_approved c + 1) (active c).

Definition update_stats (chat user : Z) (approved : bool) (err : option string) : M unit :=
  let* c := connected in
  if c then
    try_except
      (let* now := utcnow in
       store_op (λ d, (tt, set_stats (stats_collection d ++ [StatDoc now chat user approved err]) d)) ;;
       if approved then
         store_op (λ d, (tt, set_channels (alter inc_total_approved chat (channels_collection d)) d))
       else ret tt)
      (λ e, log ERROR (LogStatsFailed e))
  else ret tt.

(** ** The approval worker *)

Definition approve_single_request (chat user : Z) (first_name title : string) : M bool :=
  try_except
    (telegram (Approve chat user) ;;
     log INFO (LogApproved first_name user title) ;;
     telegram (SendPhoto user) ;;
     telegram (SendMessage user first_name title) ;;
     update_stats chat user true None ;;
     save_user user first_name None ;;
     ret true)
    (λ e,
       match e with
       | FloodWait value =>
           log WARNING (LogRateLimited value chat) ;;
           sleep value ;;
           telegram (Approve chat user) ;;
           log INFO (LogApprovedAfterWaiting first_name) ;;
           update_stats chat user true None ;;
           save_user user first_name None ;;
           ret true
       | UserDeactivated | PeerIdInvalid =>
           log WARNING (LogCannotApprove first_name e) ;;
           update_stats chat user false (Some (str e)) ;;
           ret false
       | ChatAdminRequired =>
           log ERROR (LogLacksPermission chat e) ;;
           update_stats chat user false (Some (str e)) ;;
           ret false
       | OtherError _ =>
           log ERROR (LogApproveFailed e) ;;
           update_stats chat user false (Some (str e)) ;;
           ret false
       end).

(** ** The enqueue path *)

Record join_request := JoinRequest {
  from_user_id : Z;
  from_user_first_name : string;
  jr_chat_id : Z;
  jr_chat_title : string
}.

Definition new_request (now : Z) (jr : join_request) : request_doc :=
  RequestDoc now (jr_chat_id jr) (from_user_id jr) (from_user_first_name jr)
             (jr_chat_title jr) false (Some 0) None None None.

(** [requests_queue.insert_one(doc)]: the store picks an unused [_id]. *)
Definition insert_request (doc : request_doc) : M unit :=
  store_op (λ d, (tt, set_requests_queue
                        (<[fresh (dom (requests_queue d)) := doc]> (requests_queue d)) d)).

Definition add_request_to_queue (jr : join_request) : M unit :=
  let* c := connected in
  if c then
    try_except
      (let* now := utcnow in
       insert_request (new_request now jr) ;;
       log INFO (LogAddedToQueue (from_user_first_name jr) (from_user_id jr) (jr_chat_title jr)))
      (λ e,
         log ERROR (LogQueueFailed e) ;;
         try_except
           (approve_single_request (jr_chat_id jr) (from_user_id jr)
                                   (from_user_first_name jr) (jr_chat_title jr) ;;
            ret tt)
           (λ inner_e, log ERROR (LogFallbackFailed inner_e)))
  else ret tt.

Definition handle_join_request (jr : join_request) : M unit :=
  add_request_to_queue jr.

(** ** The queue processor *)

Definition unprocessed (r : positive * request_doc) : Prop := processed r.2 = false.

Definition by_timestamp (r1 r2 : positive * request_doc) : Prop :=
  timestamp r1.2 ≤ timestamp r2.2.

#[local] Instance unprocessed_dec r : Decision (unprocessed r).
Proof. unfold unprocessed. apply _. Defined.

#[local] Instance by_timestamp_dec : RelDecision by_timestamp.
Proof. intros r1 r2. unfold by_timestamp. apply _. Defined.

(** [find({"processed": False}).sort("timestamp", 1).limit(n)] on a queue *)
Definition find_unprocessed (limit : nat) (q : gmap positive request_doc)
  : list (positive * request_doc) :=
  take limit (merge_sort by_timestamp (filter unprocessed (map_to_list q))).

Definition fetch_batch (limit : nat) : M (list (positive * request_doc)) :=
  store_op (λ d, (find_unprocessed limit (requests_queue d), d)).

(** The three [update_one] documents of [process_queue]. *)
Definition mark_processed (now : Z) (r : request_doc) : request_doc :=
  RequestDoc (timestamp r) (chat_id r) (user_id r) (user_first_name r) (chat_title r)
             true (retries r) (Some now) (error r) (failed r).

Definition mark_failed (err : string) (r : request_doc) : request_doc :=
  RequestDoc (timestamp r) (chat_id r) (user_id r) (user_first_name r) (chat_title r)
             true (retries r) (approved_at r) (Some err) (Some true).

Definition inc_retries (r : request_doc) : request_doc :=
  RequestDoc (timestamp r) (chat_id r) (user_id r) (user_first_name r) (chat_title r)
             (processed r) (Some (default 0 (retries r) + 1)) (approved_at r)
             (error r) (failed r).

(** [requests_queue.update_one({"_id": id}, update)] *)
Definition update_request (id : positive) (update : request_doc → request_doc) : M unit :=
  store_op (λ d, (tt, set_requests_queue (alter update id (requests_queue d)) d)).

(** The body of [for request in requests]. *)
Definition process_request (r : positive * request_doc) : M unit :=
  let request := r.2 in
  try_except
    (approve_single_request (chat_id request) (user_id request)
                            (user_first_name request) (chat_title request) ;;
     let* now := utcnow in
     update_request r.1 (mark_processed now))
    (λ e,
       let retry_count := default 0 (retries request) + 1 in
       if bool_decide (retry_count >= 3) then
         update_request r.1 (mark_failed (str e)) ;;
         log ERROR (LogAfter3Retries e)
       else
         update_request r.1 inc_retries).

(** What the loop does with the fetched [requests]: nothing but the idle
    sleep when there are none. *)
Definition process_batch (requests : list (positive * request_doc)) : M unit :=
  match requests with
  | [] => sleep 1
  | _ =>
      log INFO (LogBatch (length requests)) ;;
      for_each requests process_request ;;
      sleep 1
  end.

(** One turn of [while True]. *)
Definition process_queue_iteration : M unit :=
  try_except
    (let* requests := fetch_batch 10 in
     process_batch requests)
    (λ e, log ERROR (LogQueueError e) ;; sleep 5).

(** [process_queue] never leaves its loop; [iterations] bounds how many
    turns of it are observed. *)
Fixpoint process_queue_loop (iterations : nat) : M unit :=
  match iterations with
  | O => ret tt
  | S n => process_queue_iteration ;; process_queue_loop n
  end.

Definition process_queue (iterations : nat) : M unit :=
  let* c := connected in
  if c then process_queue_loop iterations else ret tt.

(** ** Broadcast *)

(** [copy_message_to_user] calls itself after each rate-limit signal, one
    call inside the other.  How deep the calls may nest is decided by the
    recursion limit of the interpreter, which is not part of the program:
    [depth] is the number of nested calls the limit leaves room for where
    the function is called.  When the room is used up, the next call raises
    [RecursionError]; it is raised inside the [except] clauses of all the
    calls around it, so none of them catches it. *)
Fixpoint copy_message_to_user (depth : nat) (user : Z) : M bool :=
  try_except
    (telegram (CopyTo user) ;; ret true)
    (λ e,
       match e with
       | FloodWait value =>
           sleep value ;;
           match depth with
           | O => raise (OtherError "RecursionError")
           | S depth' => copy_message_to_user depth' user
           end
       | _ =>
           log ERROR (LogCopyFailed user e) ;;
           ret false
       end).

(** [range(0, total, step)] *)
Definition range_step (total step : nat) : list nat :=
  map (λ k, k * step)%nat (seq 0 ((total + step - 1) / step)%nat).

(** [l[i:i+n]] *)
Definition slice {A} (l : list A) (i n : nat) : list A := take n (drop i l).

(** The body of [for user in chunk]; the counters are
    [(successful, failed)].  The elapsed time and the speed shown in the
    status texts are floating-point numbers and are left out of them. *)
Definition broadcast_to_user (depth : nat) (total_users : nat) (counters : nat * nat)
    (user : user_row) : M (nat * nat) :=
  let* result := copy_message_to_user depth (row_user_id user) in
  let successful := if result then S counters.1 else counters.1 in
  let failed_sends := if result then counters.2 else S counters.2 in
  (if bool_decide ((successful + failed_sends) `mod` 10 = 0)%nat then
     try_except
       (telegram (EditText (Broadcasting (successful + failed_sends) total_users
                                         successful failed_sends)))
       (λ _, ret tt)
   else ret tt) ;;
  ret (successful, failed_sends).

Definition broadcast_chunks (depth : nat) (users : list user_row) (counters : nat * nat)
  : M (nat * nat) :=
  let total_users := length users in
  let chunk_size := 20%nat in
  for_fold (range_step total_users chunk_size)
           (λ acc i, for_fold (slice users i chunk_size)
                             (broadcast_to_user depth total_users) acc)
           counters.

Definition handle_broadcast_message (depth : nat) : M unit :=
  telegram (Reply Preparing) ;;
  let* users := fetch_all_users in
  let total_users := length users in
  telegram (EditText (Starting total_users)) ;;
  let* counters := broadcast_chunks depth users (0, 0)%nat in
  telegram (EditText (Completed total_users counters.1 counters.2)).

(** ** Reading the model *)

(** The state of a work item, read off the flags of its document: a
    document is fetched again as long as [processed] is false; the failure
    branch of the processor sets [failed] next to [processed]. *)
Inductive status := Pending | Processed | Failed.

Definition status_of (r : request_doc) : status :=
  if processed r then
    match failed r with Some true => Failed | _ => Processed end
  else Pending.

(** The queue collection of a world; empty when the database is unset. *)
Definition queue_of (w : world) : gmap positive request_doc :=
  default ∅ (requests_queue <$> db w).

Definition same_queue (o1 o2 : option database) : Prop :=
  requests_queue <$> o1 = requests_queue <$> o2.

Definition is_log (ev : event) : bool :=
  match ev with EvLog _ _ => true | _ => false end.

(** The events other than log lines. *)
Definition effects (evs : list event) : list event :=
  omap (λ ev, if is_log ev then None else Some ev) evs.

(** The durations slept, in order. *)
Definition waits (evs : list event) : list Z :=
  omap (λ ev, match ev with EvSleep s => Some s | _ => None end) evs.

(** The rate-limit signals received, in order. *)
Definition signals (evs : list event) : list Z :=
  omap (λ ev, match ev with EvCall _ (Some (FloodWait v)) => Some v | _ => None end) evs.

(** The approval calls made, each with its answer. *)
Definition approvals (evs : list event) : list (Z * Z * option exn) :=
  omap (λ ev, match ev with EvCall (Approve c u) a => Some (c, u, a) | _ => None end) evs.

(** The messages sent to subjects (promotional photo, confirmation). *)
Definition notifications (evs : list event) : list call :=
  omap (λ ev, match ev with
              | EvCall (SendPhoto u) _ => Some (SendPhoto u)
              | EvCall (SendMessage u n t) _ => Some (SendMessage u n t)
              | _ => None
              end) evs.

(** The errors the worker logged as the reason why an approval failed. *)
Definition approval_errors (evs : list event) : list exn :=
  omap (λ ev, match ev with
              | EvLog WARNING (LogCannotApprove _ e)
              | EvLog ERROR (LogLacksPermission _ e)
              | EvLog ERROR (LogApproveFailed e) => Some e
              | _ => None
              end) evs.

(** What follows the first rate-limit signal, with the signalled wait. *)
Fixpoint after_first_signal (evs : list event) : option (Z * list event) :=
  match evs with
  | [] => None
  | EvCall _ (Some (FloodWait v)) :: rest => Some (v, rest)
  | _ :: rest => after_first_signal rest
  end.

(** The answer the [i]-th coming Telegram call will get. *)
Definition answer (script : list (option exn)) (i : nat) : option exn :=
  default None (script !! i).

(** The worker as the transport sees it: the calls and sleeps it makes and
    its outcome, as a function of the answers to come.  [handler_view i e]
    is the [except] clause entered with [e] after [i] answers were used. *)
Definition handler_view (chat user : Z) (script : list (option exn)) (i : nat) (e : exn)
  : list event * (bool + exn) :=
  match e with
  | FloodWait v =>
      ([EvSleep v; EvCall (Approve chat user) (answer script i)],
       match answer script i with None => inl true | Some e' => inr e' end)
  | _ => ([], inl false)
  end.

Definition worker_view (chat user : Z) (first_name title : string)
    (script : list (option exn)) : list event * (bool + exn) :=
  let approve := EvCall (Approve chat user) (answer script 0) in
  let photo := EvCall (SendPhoto user) (answer script 1) in
  let message := EvCall (SendMessage user first_name title) (answer script 2) in
  match answer script 0 with
  | Some e => ([approve] ++ (handler_view chat user script 1 e).1,
               (handler_view chat user script 1 e).2)
  | None =>
      match answer script 1 with
      | Some e => ([approve; photo] ++ (handler_view chat user script 2 e).1,
                   (handler_view chat user script 2 e).2)
      | None =>
          match answer script 2 with
          | Some e => ([approve; photo; message] ++ (handler_view chat user script 3 e).1,
                       (handler_view chat user script 3 e).2)
          | None => ([approve; photo; message], inl true)
          end
      end
  end.


(** The updates the processor may apply to the document of a fetched
    [request]. *)
Inductive request_update (request : request_doc) : (request_doc → request_doc) → Prop :=
| update_processed now : request_update request (mark_processed now)
| update_failed err :
    default 0 (retries request) + 1 >= 3 → request_update request (mark_failed err)
| update_retry :
    default 0 (retries request) + 1 < 3 → request_update request inc_retries.

(** [q'] is [q] after at most one such update of the document [id]. *)
Definition touched (request : request_doc) (id : positive)
    (q q' : gmap positive request_doc) : Prop :=
  q' = q ∨ ∃ u, request_update request u ∧ q' = alter u id q.

(** How the document of a work item may differ after a turn of the loop. *)
Inductive transition (r : request_doc) : request_doc → Prop :=
| stay : transition r r
| retry_later :
    status_of r = Pending → default 0 (retries r) + 1 < 3 →
    transition r (inc_retries r)
| to_processed now :
    status_of r = Pending → transition r (mark_processed now r)
| to_failed err :
    status_of r = Pending → default 0 (retries r) + 1 >= 3 →
    transition r (mark_failed err r).

(** Between the queues [q] and [q'] the document [id] moved along
    [transition], and was neither inserted nor deleted. *)
Definition item_step (q q' : gmap positive request_doc) (id : positive) : Prop :=
  match q !! id with
  | Some r => ∃ r', q' !! id = Some r' ∧ transition r r'
  | None => q' !! id = None
  end.

(** The worlds the program can be in, as far as the queue goes: it starts
    with an empty queue (or none); join requests arrive; the processor takes
    turns; anything else (other handlers, the answers of the outside world,
    the passing of time) leaves the queue alone. *)
Inductive reachable : world → Prop :=
| reach_start w : queue_of w = ∅ → reachable w
| reach_frame w w' : reachable w → same_queue (db w) (db w') → reachable w'
| reach_join w jr : reachable w → reachable (handle_join_request jr w).2
| reach_turn w : reachable w → reachable (process_queue_iteration w).2.

(** The retry counter of every Pending document is present and at most 2,
    and a Pending document is not flagged [failed]. *)
Definition well_counted (q : gmap positive request_doc) : Prop :=
  ∀ id r, q !! id = Some r → status_of r = Pending →
          failed r = None ∧ ∃ k, retries r = Some k ∧ 0 ≤ k ≤ 2.

(** How each delivery of a broadcast ended: the recipient, and whether the
    copy went through ([true]) or ended with an error that is not a
    rate-limit signal ([false]).  A rate-limited copy has not ended. *)
Definition outcomes (evs : list event) : list (Z * bool) :=
  omap (λ ev, match ev with
              | EvCall (CopyTo u) None => Some (u, true)
              | EvCall (CopyTo u) (Some (FloodWait _)) => None
              | EvCall (CopyTo u) (Some _) => Some (u, false)
              | _ => None
              end) evs.

Definition delivered (os : list (Z * bool)) : nat :=
  length (filter (λ o, o.2 = true) os).

Definition undelivered (os : list (Z * bool)) : nat :=
  length (filter (λ o, o.2 = false) os).

(** Every rate-limited copy is followed at once by a sleep of the signalled
    duration and then by a copy to the same recipient. *)
Fixpoint retried_after_wait (evs : list event) : bool :=
  match evs with
  | [] => true
  | EvCall (CopyTo u) (Some (FloodWait v)) :: rest =>
      match rest with
      | EvSleep s :: EvCall (CopyTo u') _ :: _ =>
          bool_decide (s = v ∧ u' = u) && retried_after_wait rest
      | _ => false
      end
  | _ :: rest => retried_after_wait rest
  end.

(** Whether an answer is a rate-limit signal. *)
Definition is_flood (a : option exn) : bool :=
  match a with Some (FloodWait _) => true | _ => false end.

(** The number of rate-limit signals the coming calls get in a row, from
    the next call on. *)
Fixpoint leading_floods (answers : list (option exn)) : nat :=
  match answers with
  | a :: rest => if is_flood a then S (leading_floods rest) else 0%nat
  | [] => 0%nat
  end.

(** The longest run of rate-limit signals among the answers to come. *)
Fixpoint longest_flood_run (answers : list (option exn)) : nat :=
  match answers with
  | [] => 0%nat
  | _ :: rest => (leading_floods answers `max` longest_flood_run rest)%nat
  end.
(** ** What the bookkeeping writes *)

(** The database after an [update_stats] whose store operations succeed:
    one more statistics document and, for an approval, the counter of the
    channel incremented when the channel has a document. *)
Definition record_stat (now chat user : Z) (approved : bool) (err : option string)
    (d : database) : database :=
  let d1 := set_stats (stats_collection d ++ [StatDoc now chat user approved err]) d in
  if approved then set_channels (alter inc_total_approved chat (channels_collection d1)) d1
  else d1.

(** The database after a [save_user] whose upsert succeeds. *)
Definition upsert_user (now user : Z) (first_name : string) (uname : option string)
    (d : database) : database :=
  set_users (<[user := UserDoc first_name uname now]> (users_collection d)) d.

(** What an approval that succeeds at once leaves in the trace. *)
Definition success_events (chat user : Z) (first_name title : string) : list event :=
  [EvCall (Approve chat user) None;
   EvLog INFO (LogApproved first_name user title);
   EvCall (SendPhoto user) None;
   EvCall (SendMessage user first_name title) None;
   EvLog INFO (LogUserSaved first_name user)].

(** ** What the handlers keep *)

(** [m] takes every world to one related to it by [R]. *)
Definition preserves {A} (R : world → world → Prop) (m : M A) : Prop :=
  ∀ w, R w (m w).2.

(** The store only grows: it stays connected or unconnected, the
    statistics are extended at the end, no user and no request document
    disappears, and the channels that have a document stay the same. *)
Definition db_evolves (o o' : option database) : Prop :=
  match o, o' with
  | None, None => True
  | Some d, Some d' =>
      stats_collection d `prefix_of` stats_collection d'
      ∧ dom (channels_collection d') = dom (channels_collection d)
      ∧ dom (users_collection d) ⊆ dom (users_collection d')
      ∧ dom (requests_queue d) ⊆ dom (requests_queue d')
  | _, _ => False
  end.

Definition evolves (w w' : world) : Prop := db_evolves (db w) (db w').

(** The store is left exactly as it is. *)
Definition same_db (w w' : world) : Prop := db w' = db w.

(** The documents of a queue that are still to be processed. *)
Definition pending (q : gmap positive request_doc) : list (positive * request_doc) :=
  filter unprocessed (map_to_list q).

(** The approval call a request asks for, answered with success. *)
Definition approval_of (r : positive * request_doc) : Z * Z * option exn :=
  (chat_id r.2, user_id r.2, None).


(** The progress texts the broadcast put into its status message (whether
    the edit went through or not), in order: the numbers shown as
    processed, total, successful and failed. *)
Definition progress_updates (evs : list event) : list (nat * nat * nat * nat) :=
  omap (λ ev, match ev with
              | EvCall (EditText (Broadcasting processed_users total_users successful
                                               failed_sends)) _ =>
                  Some (processed_users, total_users, successful, failed_sends)
              | _ => None
              end) evs.

(** The number shown as processed in a progress text. *)
Definition shown_processed (u : nat * nat * nat * nat) : nat := u.1.1.1.

(** A progress text is consistent for a broadcast to [total] users: it
    shows that total, and its two counters add up to the number shown as
    processed. *)
Definition consistent_progress (total : nat) (u : nat * nat * nat * nat) : Prop :=
  u.1.1.2 = total ∧ (u.1.2 + u.2 = u.1.1.1)%nat.

(** The errors logged by the handler around a turn of the processor's loop
    ("Error processing queue"), in order. *)
Definition queue_errors (evs : list event) : list exn :=
  omap (λ ev, match ev with EvLog _ (LogQueueError e) => Some e | _ => None end) evs.

(** The exceptions a store operation raises. *)
Definition store_error (e : exn) : Prop :=
  e = OtherError "PyMongoError" ∨ e = OtherError "AttributeError".

(** The trace has only grown, by events that are no queue errors. *)
Definition quiet (w w' : world) : Prop :=
  ∃ evs, trace w' = trace w ++ evs ∧ queue_errors evs = [].
(** * Properties *)

(** ** The helpers never raise and leave the queue alone *)

Lemma same_queue_refl o : same_queue o o.
Proof. reflexivity. Qed.

Lemma same_queue_trans o1 o2 o3 :
  same_queue o1 o2 → same_queue o2 o3 → same_queue o1 o3.
Proof. unfold same_queue. congruence. Qed.

(** [save_user] and [update_stats] catch every exception; all they leave
    in the trace are log lines. *)
Lemma save_user_spec user first_name uname w :
  ∃ b d' f' logs,
    save_user user first_name uname w
      = (inl b, World d' f' (net w) (clock w) (trace w ++ logs))
    ∧ same_queue (db w) d' ∧ effects logs = [].
Proof.
  destruct w as [[d|] f n c t].
  - destruct f as [|[] f]; cbn.
    + by eexists _, _, _, [_].
    + by eexists _, _, _, [_].
    + by eexists _, _, _, [_].
  - exists false, None, f, []. cbn. by rewrite app_nil_r.
Qed.

Lemma update_stats_spec chat user approved err w :
  ∃ d' f' logs,
    update_stats chat user approved err w
      = (inl tt, World d' f' (net w) (clock w) (trace w ++ logs))
    ∧ same_queue (db w) d' ∧ effects logs = [].
Proof.
  destruct w as [[d|] f n c t].
  - destruct approved, f as [|[] [|[] f]]; cbn;
      first [ by eexists _, _, [_] | eexists _, _, []; by rewrite app_nil_r ].
  - exists None, f, []. cbn. by rewrite app_nil_r.
Qed.

(** ** The approval worker, seen from the transport *)

Arguments update_stats : simpl never.
Arguments save_user : simpl never.

Ltac use_helper :=
  match goal with
  | |- context [update_stats ?a ?b ?c ?d ?w] =>
      let H := fresh in
      destruct (update_stats_spec a b c d w) as (? & ? & ? & H & ? & ?);
      rewrite H; clear H; cbn in *
  | |- context [save_user ?a ?b ?c ?w] =>
      let H := fresh in
      destruct (save_user_spec a b c w) as (? & ? & ? & ? & H & ? & ?);
      rewrite H; clear H; cbn in *
  end.

Lemma effects_app l1 l2 : effects (l1 ++ l2) = effects l1 ++ effects l2.
Proof. apply omap_app. Qed.

Ltac effects_induction evs :=
  induction evs as [|ev evs IH]; [done|];
  destruct ev as [[] [[]|]| |]; cbn; first [exact IH | f_equal; exact IH].

Lemma waits_effects evs : waits (effects evs) = waits evs.
Proof. effects_induction evs. Qed.

Lemma approvals_effects evs : approvals (effects evs) = approvals evs.
Proof. effects_induction evs. Qed.

Lemma signals_effects evs : signals (effects evs) = signals evs.
Proof. effects_induction evs. Qed.


Ltac finish_view :=
  eexists _, _; split; [reflexivity|];
  split; [cbn; eauto using same_queue_trans, same_queue_refl|];
  split; [cbn; rewrite <- ?(assoc_L (++)); reflexivity|];
  split; [|intros ?; by cbn];
  rewrite ?effects_app; cbn;
  repeat match goal with H : effects _ = [] |- _ => rewrite H end;
  reflexivity.

(** Case analysis on the answers [worker_view] inspects. *)
Ltac case_answers :=
  repeat match goal with
         | |- context [match answer ?s ?i with _ => _ end] =>
             destruct (answer s i) as [[]|]; cbn
         end.

Ltac run_worker := cbn; repeat use_helper; try solve [finish_view].

(** The worker does what [worker_view] says, up to log lines; it never
    touches the queue. *)
Lemma approve_single_request_view chat user first_name title w :
  ∃ w' evs,
    approve_single_request chat user first_name title w
      = ((worker_view chat user first_name title (net w)).2, w')
    ∧ same_queue (db w) (db w')
    ∧ trace w' = trace w ++ evs
    ∧ effects evs = (worker_view chat user first_name title (net w)).1
    ∧ ((worker_view chat user first_name title (net w)).2 = inl false →
       approval_errors evs ≠ []).
Proof.
  destruct w as [d f n c t].
  unfold approve_single_request, try_except, bind, telegram, log, emit, sleep, ret; cbn.
  destruct n as [|[[]|] n]; run_worker.
  all: destruct n as [|[[]|] n]; run_worker.
  all: destruct n as [|[[]|] n]; run_worker.
  all: destruct n as [|[[]|] n]; run_worker.
Qed.

(** C5.  In one invocation of the approval worker there is at most one
    rate-limit wait.  If no rate-limit signal arrives, the worker does not
    sleep and does not raise.  On the first signal, with wait [v], all the
    worker still does is sleep [v] and call the approval once more: the
    answer [a] to that call is the outcome of the invocation, so a second
    signal is raised to the caller and never waited on. *)
Theorem approve_single_request_single_wait chat user first_name title w :
  ∃ evs,
    trace (approve_single_request chat user first_name title w).2 = trace w ++ evs
    ∧ match after_first_signal (effects evs) with
      | None =>
          waits evs = []
          ∧ ∃ b, (approve_single_request chat user first_name title w).1 = inl b
      | Some (v, rest) =>
          ∃ a, rest = [EvSleep v; EvCall (Approve chat user) a]
               ∧ waits evs = [v]
               ∧ signals evs = v :: match a with Some (FloodWait v2) => [v2] | _ => [] end
               ∧ (approve_single_request chat user first_name title w).1
                 = match a with None => inl true | Some e => inr e end
      end.
Proof.
  destruct (approve_single_request_view chat user first_name title w)
    as (w' & evs & -> & _ & Ht & He & _).
  exists evs. split; [done|].
  rewrite <- (waits_effects evs), <- (signals_effects evs), He. cbn.
  unfold worker_view.
  destruct (answer (net w) 0) as [[]|]; cbn; eauto;
    try (destruct (answer (net w) 1) as [[]|]; cbn; eauto;
         try (destruct (answer (net w) 2) as [[]|]; cbn; eauto;
              try (destruct (answer (net w) 3) as [[]|]; cbn; eauto))).
  all: try (eexists; repeat split; reflexivity).
Qed.

(** ** The queue processor *)

Lemma same_queue_queue_of w w' : same_queue (db w) (db w') → queue_of w' = queue_of w.
Proof. unfold same_queue, queue_of. by intros ->. Qed.

(** Handling one fetched request changes at most its own document, by at
    most one update. *)
Lemma process_request_touched r w :
  touched r.2 r.1 (queue_of w) (queue_of (process_request r w).2).
Proof.
  destruct r as [id request]. unfold process_request, try_except, bind. cbn [fst snd].
  destruct (approve_single_request_view (chat_id request) (user_id request)
              (user_first_name request) (chat_title request) w)
    as (w1 & evs & -> & Hq & _).
  apply same_queue_queue_of in Hq. rewrite <- Hq. clear Hq.
  destruct w1 as [[d1|] f1 n1 c1 t1];
    (destruct ((worker_view _ _ _ _ _).2) as [b|e];
     [destruct f1 as [|[] [|[] f1]]|destruct f1 as [|[] f1]]);
    cbn; try case_bool_decide; cbn;
    first [ by left
          | right; eexists; split; [|reflexivity];
            first [ apply update_processed
                  | apply update_failed; lia
                  | apply update_retry; lia ] ].
Qed.

#[local] Instance by_timestamp_total : Total by_timestamp.
Proof. intros r1 r2. unfold by_timestamp. lia. Qed.

#[local] Instance by_timestamp_trans : Transitive by_timestamp.
Proof. intros r1 r2 r3. unfold by_timestamp. lia. Qed.

Section find_unprocessed.
Variable limit : nat.
Variable q : gmap positive request_doc.

Lemma find_unprocessed_sublist :
  find_unprocessed limit q
    `sublist_of` merge_sort by_timestamp (filter unprocessed (map_to_list q)).
Proof. apply sublist_take. Qed.

Lemma find_unprocessed_length : (length (find_unprocessed limit q) ≤ limit)%nat.
Proof. unfold find_unprocessed. rewrite length_take. lia. Qed.

Lemma find_unprocessed_elem r :
  r ∈ find_unprocessed limit q → q !! r.1 = Some r.2 ∧ processed r.2 = false.
Proof.
  intros Hr. eapply elem_of_sublist in Hr; [|apply find_unprocessed_sublist].
  rewrite merge_sort_Permutation in Hr.
  apply list_elem_of_filter in Hr as [Hp Hr].
  split; [|done]. destruct r. by apply elem_of_map_to_list.
Qed.

Lemma find_unprocessed_sorted : StronglySorted by_timestamp (find_unprocessed limit q).
Proof.
  unfold find_unprocessed.
  set (l := merge_sort _ _).
  assert (StronglySorted by_timestamp l) as Hl
    by (apply StronglySorted_merge_sort; apply _).
  rewrite <- (take_drop limit l) in Hl. by apply StronglySorted_app_1_l in Hl.
Qed.

Lemma find_unprocessed_NoDup : NoDup (find_unprocessed limit q).*1.
Proof.
  eapply sublist_NoDup; [|apply fmap_sublist, find_unprocessed_sublist].
  rewrite merge_sort_Permutation.
  eapply sublist_NoDup; [apply (NoDup_fst_map_to_list q)|].
  apply fmap_sublist, sublist_filter.
Qed.
End find_unprocessed.

Lemma touched_other request id q q' j :
  touched request id q q' → j ≠ id → q' !! j = q !! j.
Proof. intros [->|(u & _ & ->)] ?; [done|]. by rewrite lookup_alter_ne. Qed.

Lemma touched_same request id q q' :
  touched request id q q' → q !! id = Some request → processed request = false →
  ∃ r', q' !! id = Some r' ∧ transition request r'.
Proof.
  intros [->|(u & Hu & ->)] Hq Hp.
  - eauto using stay.
  - rewrite lookup_alter_eq, Hq. eexists; split; [done|].
    destruct Hu; constructor; unfold status_of; rewrite ?Hp; done.
Qed.

Lemma for_each_cons {A} (x : A) l body w :
  for_each (x :: l) body w
  = match body x w with
    | (inl _, w1) => for_each l body w1
    | (inr e, w1) => (inr e, w1)
    end.
Proof. reflexivity. Qed.

(** The loop over a batch of distinct Pending documents: a document outside
    the batch is untouched, one inside moves along [transition]. *)
Lemma for_each_process_request batch w :
  NoDup batch.*1 →
  (∀ r, r ∈ batch → queue_of w !! r.1 = Some r.2 ∧ processed r.2 = false) →
  ∀ id,
    (id ∉ batch.*1 →
     queue_of (for_each batch process_request w).2 !! id = queue_of w !! id)
    ∧ (∀ r, queue_of w !! id = Some r →
            ∃ r', queue_of (for_each batch process_request w).2 !! id = Some r'
                  ∧ transition r r')
    ∧ (queue_of w !! id = None →
       queue_of (for_each batch process_request w).2 !! id = None).
Proof.
  revert w. induction batch as [|b l IH]; intros w Hnd Hin id.
  { cbn. eauto using stay. }
  rewrite fmap_cons in Hnd. apply NoDup_cons in Hnd as [Hb Hl].
  pose proof (process_request_touched b w) as Ht.
  rewrite for_each_cons.
  destruct (process_request b w) as [[[]|e] w1]; cbn [snd] in Ht |- *.
  - assert (∀ r, r ∈ l → queue_of w1 !! r.1 = Some r.2 ∧ processed r.2 = false) as Hin1.
    { intros r Hr. destruct (Hin r) as [Hq Hp]; [by right|]. split; [|done].
      rewrite <- Hq. eapply touched_other; [done|].
      intros Heq. apply Hb. rewrite <- Heq. by apply list_elem_of_fmap_2. }
    destruct (IH w1 Hl Hin1 id) as (IH1 & IH2 & IH3).
    destruct (decide (id = b.1)) as [->|Hne].
    + specialize (IH1 Hb). split; [intros []; by left|]. split.
      * intros r Hr. destruct (Hin b) as [Hq Hp]; [by left|].
        assert (r = b.2) as -> by congruence.
        destruct (touched_same _ _ _ _ Ht Hq Hp) as (r1 & Hr1 & Htr).
        exists r1. by rewrite IH1.
      * intros Hr. destruct (Hin b) as [Hq Hp]; [by left|]. congruence.
    + pose proof (touched_other _ _ _ _ id Ht Hne) as Hsame.
      rewrite <- Hsame. split; [|done].
      intros Hid. apply IH1. intros ?. apply Hid. by right.
  - destruct (decide (id = b.1)) as [->|Hne].
    + split; [intros []; by left|]. split.
      * intros r Hr. destruct (Hin b) as [Hq Hp]; [by left|].
        assert (r = b.2) as -> by congruence.
        by apply (touched_same _ _ _ _ Ht).
      * intros Hr. destruct (Hin b) as [Hq Hp]; [by left|]. congruence.
    + rewrite (touched_other _ _ _ _ id Ht Hne). eauto using stay.
Qed.

Arguments for_each : simpl never.
Arguments process_request : simpl never.
Arguments find_unprocessed : simpl never.

Lemma item_step_same q q' id : q' = q → item_step q q' id.
Proof. intros ->. unfold item_step. destruct (q !! id); eauto using stay. Qed.

Lemma process_batch_step batch w id :
  NoDup batch.*1 →
  (∀ r, r ∈ batch → queue_of w !! r.1 = Some r.2 ∧ processed r.2 = false) →
  item_step (queue_of w) (queue_of (process_batch batch w).2) id.
Proof.
  intros Hnd Hin. destruct batch as [|b l]; [by apply item_step_same|].
  unfold process_batch, bind.
  set (w1 := (log INFO (LogBatch (length (b :: l))) w).2).
  change (log INFO (LogBatch (length (b :: l))) w) with (inl (A:=unit) (B:=exn) tt, w1).
  destruct (for_each_process_request (b :: l) w1 Hnd Hin id) as (_ & H2 & H3).
  change (queue_of w1) with (queue_of w) in H2, H3.
  unfold item_step.
  destruct (for_each (b :: l) process_request w1) as [[[]|e] w2]; cbn [snd] in *;
    destruct (queue_of w !! id); eauto.
Qed.

(** One turn of the loop moves every document along [transition] and
    neither adds nor removes one. *)
Lemma process_queue_iteration_step w id :
  item_step (queue_of w) (queue_of (process_queue_iteration w).2) id.
Proof.
  destruct w as [[d|] f n c t]; [|by apply item_step_same].
  unfold process_queue_iteration, try_except, bind, fetch_batch, store_op.
  cbn [db db_faults net clock trace].
  assert (∀ f', item_step (requests_queue d)
            (queue_of
               (let (s, w') :=
                  process_batch (find_unprocessed 10 (requests_queue d))
                                (World (Some d) f' n c t) in
                match s with
                | inl a => (inl a, w')
                | inr e => (log ERROR (LogQueueError e);; sleep 5) w'
                end).2) id) as Hrun.
  { intros f'.
    pose proof (process_batch_step (find_unprocessed 10 (requests_queue d))
                  (World (Some d) f' n c t) id
                  (find_unprocessed_NoDup 10 (requests_queue d))
                  (find_unprocessed_elem 10 (requests_queue d))) as Hstep.
    destruct (process_batch _ _) as [[[]|e] w2]; exact Hstep. }
  destruct f as [|[] f]; [apply Hrun|by apply item_step_same|apply Hrun].
Qed.

Lemma status_of_inc_retries r : status_of (inc_retries r) = status_of r.
Proof. reflexivity. Qed.

Lemma status_of_mark_processed now r :
  status_of (mark_processed now r) = Processed ∨ status_of (mark_processed now r) = Failed.
Proof. unfold status_of; cbn. destruct (failed r) as [[]|]; auto. Qed.

Lemma transition_terminal r r' : transition r r' → status_of r ≠ Pending → r' = r.
Proof. by destruct 1. Qed.

Lemma transition_cases r r' :
  transition r r' →
  r' = r
  ∨ status_of r = Pending
    ∧ (r' = inc_retries r ∧ status_of r' = Pending
       ∨ status_of r' = Processed
       ∨ status_of r' = Failed).
Proof.
  destruct 1 as [| | now |]; auto.
  right. split; [done|]. right. apply status_of_mark_processed.
Qed.

Lemma rtc_transition_terminal r r' :
  rtc transition r r' → status_of r ≠ Pending → r' = r.
Proof.
  induction 1 as [|r r1 r2 H1 _ IH]; [done|].
  intros Hr. apply (transition_terminal _ _ H1) in Hr as Heq. subst r1. auto.
Qed.

Lemma process_queue_loop_steps n w id :
  match queue_of w !! id with
  | Some r => ∃ r', queue_of (process_queue_loop n w).2 !! id = Some r'
                    ∧ rtc transition r r'
  | None => queue_of (process_queue_loop n w).2 !! id = None
  end.
Proof.
  revert w. induction n as [|n IH]; intros w.
  { cbn. destruct (queue_of w !! id); eauto using rtc_refl. }
  cbn [process_queue_loop]. unfold bind.
  pose proof (process_queue_iteration_step w id) as Hstep. unfold item_step in Hstep.
  destruct (process_queue_iteration w) as [[[]|e] w1]; cbn [snd] in *.
  - specialize (IH w1).
    destruct (queue_of w !! id) as [r|].
    + destruct Hstep as (r1 & Hr1 & Ht). rewrite Hr1 in IH.
      destruct IH as (r' & Hr' & Hrtc). eauto using rtc_l.
    + by rewrite Hstep in IH.
  - destruct (queue_of w !! id) as [r|]; [|done].
    destruct Hstep as (r1 & Hr1 & Ht). eauto using rtc_once.
Qed.

(** C9.  In a turn of the processor's loop, started in any state, a
    document of the queue is never deleted and none is added; it is left as
    it is, or it was Pending and is updated once: its retry counter is
    incremented and it stays Pending, or it becomes Processed, or it becomes
    Failed.  A document that is Processed or Failed is not mutated, in this
    turn or in any number of further turns. *)
Theorem process_queue_transitions_only (w : world) (id : positive) :
  match queue_of w !! id with
  | Some r =>
      (∃ r', queue_of (process_queue_iteration w).2 !! id = Some r'
             ∧ transition r r'
             ∧ (r' = r
                ∨ status_of r = Pending
                  ∧ (r' = inc_retries r ∧ status_of r' = Pending
                     ∨ status_of r' = Processed
                     ∨ status_of r' = Failed)))
      ∧ ∀ n,
          ∃ r', queue_of (process_queue n w).2 !! id = Some r'
                ∧ rtc transition r r'
                ∧ (status_of r ≠ Pending → r' = r)
  | None =>
      queue_of (process_queue_iteration w).2 !! id = None
      ∧ ∀ n, queue_of (process_queue n w).2 !! id = None
  end.
Proof.
  pose proof (process_queue_iteration_step w id) as Hstep. unfold item_step in Hstep.
  assert (∀ n, process_queue n w = process_queue_loop n w
               ∨ (process_queue n w).2 = w) as Hpq.
  { intros n. unfold process_queue, bind, connected. cbn.
    case_bool_decide; auto. }
  destruct (queue_of w !! id) as [r|] eqn:Hr.
  - destruct Hstep as (r' & Hr' & Ht). split.
    + exists r'. eauto using transition_cases.
    + intros n. destruct (Hpq n) as [->| ->].
      * pose proof (process_queue_loop_steps n w id) as Hn. rewrite Hr in Hn.
        destruct Hn as (r2 & Hr2 & Hrtc). eauto using rtc_transition_terminal.
      * exists r. eauto using rtc_refl.
  - split; [done|]. intros n. destruct (Hpq n) as [->| ->]; [|done].
    pose proof (process_queue_loop_steps n w id) as Hn. by rewrite Hr in Hn.
Qed.

(** ** Fetching a batch *)

Lemma status_of_pending r : status_of r = Pending ↔ processed r = false.
Proof. unfold status_of. destruct (processed r), (failed r) as [[]|]; by split. Qed.

(** A Pending document left out of the batch is no older than any
    document of the batch. *)
Lemma find_unprocessed_oldest limit q r :
  q !! r.1 = Some r.2 → processed r.2 = false →
  r ∈ find_unprocessed limit q ∨ ∀ b, b ∈ find_unprocessed limit q → by_timestamp b r.
Proof.
  intros Hq Hp. unfold find_unprocessed.
  set (l := merge_sort by_timestamp (filter unprocessed (map_to_list q))).
  assert (r ∈ l) as Hr.
  { unfold l. rewrite merge_sort_Permutation. apply list_elem_of_filter.
    split; [done|]. destruct r. by apply elem_of_map_to_list. }
  assert (StronglySorted by_timestamp l) as Hl
    by (apply StronglySorted_merge_sort; apply _).
  rewrite <- (take_drop limit l) in Hr, Hl.
  apply elem_of_app in Hr as [Hr|Hr]; [by left|right].
  intros b Hb. by eapply StronglySorted_app_1_elem_of.
Qed.

(** C7.  A fetch with limit [n] either raises (the store handle is unset or
    the driver fails) or returns a batch: at most [n] documents, each one a
    Pending document of the queue, in ascending order of [timestamp], the
    oldest Pending ones first; the store is not changed.  An empty batch is
    not an error: the turn of the loop that fetches it returns normally
    after the idle sleep of one second. *)
Theorem fetch_batch_pending_oldest_first (n : nat) (w : world) :
  match fetch_batch n w with
  | (inl batch, w') =>
      (length batch ≤ n)%nat
      ∧ Forall (λ r, queue_of w !! r.1 = Some r.2 ∧ status_of r.2 = Pending) batch
      ∧ StronglySorted by_timestamp batch
      ∧ (∀ r, queue_of w !! r.1 = Some r.2 → status_of r.2 = Pending →
              r ∈ batch ∨ Forall (λ b, timestamp b.2 ≤ timestamp r.2) batch)
      ∧ db w' = db w
      ∧ (n = 10%nat → batch = [] → process_queue_iteration w = sleep 1 w')
  | (inr e, w') =>
      (db w = None ∨ head (db_faults w) = Some true) ∧ db w' = db w
  end.
Proof.
  destruct w as [[d|] f n0 c t]; [|cbn; auto].
  assert (Forall (λ r, requests_queue d !! r.1 = Some r.2 ∧ status_of r.2 = Pending)
                 (find_unprocessed n (requests_queue d))) as Hall.
  { apply Forall_forall. intros r Hr.
    apply find_unprocessed_elem in Hr as [? ?]. by rewrite status_of_pending. }
  assert (∀ r, requests_queue d !! r.1 = Some r.2 → status_of r.2 = Pending →
            r ∈ find_unprocessed n (requests_queue d)
            ∨ Forall (λ b, timestamp b.2 ≤ timestamp r.2)
                     (find_unprocessed n (requests_queue d))) as Hold.
  { intros r Hq Hp. apply status_of_pending in Hp.
    destruct (find_unprocessed_oldest n (requests_queue d) r Hq Hp) as [|Hb];
      [by left|right]. by apply Forall_forall. }
  pose proof (find_unprocessed_length n (requests_queue d)) as Hlen.
  pose proof (find_unprocessed_sorted n (requests_queue d)) as Hsort.
  destruct f as [|[] f]; cbn; [|by auto|];
    (repeat split; [done..|]); intros -> Hnil;
    unfold process_queue_iteration, try_except, bind, fetch_batch, store_op;
    cbn [db db_faults net clock trace]; by rewrite Hnil.
Qed.

(** ** The enqueue path *)

Arguments approve_single_request : simpl never.

(** C10.  When the database is unavailable (the queue handle is unset), the
    enqueue path returns at once: nothing is inserted, no Telegram call is
    made (so no fallback approval), nothing is logged; the world is left
    exactly as it was. *)
Theorem enqueue_without_database (jr : join_request) (w : world) :
  db w = None → handle_join_request jr w = (inl tt, w).
Proof.
  destruct w as [d f n c t]. cbn [db]. intros ->. reflexivity.
Qed.

(** [enqueue_without_database] on a world without database. *)
Lemma enqueue_without_database_witness :
  db (World None [] [None] 0 []) = None
  ∧ handle_join_request (JoinRequest 7 "Ann" (-1001) "Group") (World None [] [None] 0 [])
    = (inl tt, World None [] [None] 0 []).
Proof.
  split; [reflexivity|].
  apply (enqueue_without_database (JoinRequest 7 "Ann" (-1001) "Group")
           (World None [] [None] 0 [])).
  reflexivity.
Defined.

(** What the enqueue path does when the insert into the queue fails, for
    every answer of Telegram: it logs the failure and invokes the approval
    worker exactly once, for the same target group and subject; it returns
    normally whatever the worker does, and logs the exception if the worker
    raises one.  Nothing is added to the queue.  Every approval call of that
    invocation is for this group and subject; there is exactly one when no
    rate-limit signal arrives.  When the worker returns failure it has
    logged the error. *)
Lemma enqueue_failure_falls_back (jr : join_request) (d : database)
    (fs : list bool) (n : list (option exn)) (c : Z) (t : list event) :
  let w1 := World (Some d) fs n c
                  (t ++ [EvLog ERROR (LogQueueFailed (OtherError "PyMongoError"))]) in
  let run := approve_single_request (jr_chat_id jr) (from_user_id jr)
                                    (from_user_first_name jr) (jr_chat_title jr) w1 in
  add_request_to_queue jr (World (Some d) (true :: fs) n c t)
  = (inl tt,
     match run.1 with
     | inl _ => run.2
     | inr e => (log ERROR (LogFallbackFailed e) run.2).2
     end)
  ∧ queue_of run.2 = requests_queue d
  ∧ ∃ evs,
      trace run.2 = trace w1 ++ evs
      ∧ Forall (λ a, a.1 = (jr_chat_id jr, from_user_id jr)) (approvals evs)
      ∧ (signals evs = [] → length (approvals evs) = 1%nat)
      ∧ (length (approvals evs) ≤ 2)%nat
      ∧ (run.1 = inl false → approval_errors evs ≠ []).
Proof.
  intros w1 run. split; [|split].
  - unfold add_request_to_queue, try_except, bind, connected, utcnow,
      insert_request, store_op, log, emit, ret.
    cbn [db]. rewrite bool_decide_eq_true_2 by eauto.
    cbn [db db_faults net clock trace fst snd].
    fold w1. fold run.
    by destruct run as [[b|e] w2].
  - unfold run.
    destruct (approve_single_request_view (jr_chat_id jr) (from_user_id jr)
                (from_user_first_name jr) (jr_chat_title jr) w1)
      as (w2 & evs & -> & Hq & _).
    cbn [snd]. by rewrite (same_queue_queue_of _ _ Hq).
  - unfold run.
    destruct (approve_single_request_view (jr_chat_id jr) (from_user_id jr)
                (from_user_first_name jr) (jr_chat_title jr) w1)
      as (w2 & evs & -> & _ & Ht & He & Hlog).
    exists evs. cbn [fst snd]. split; [done|].
    rewrite <- (approvals_effects evs), <- (signals_effects evs), He.
    split; [|split; [|split; [|done]]]; clear;
      unfold worker_view; cbn; case_answers;
      try done; try lia; repeat constructor.
Qed.

(** C8, on the code.  The rate-limit handler of the worker covers the
    whole [try] body, not only the approval call.  When the insert into the
    queue fails and, in the fallback, the approval succeeds but the
    promotional photo or the confirmation message is rate-limited, the
    handler sleeps and approves the same subject again: the enqueue path
    returns normally, nothing is queued, and the fallback has made two
    approval calls for the subject, the first of them answered with
    success, the second with the answer [a] that comes next. *)
Theorem fallback_repeats_a_successful_approval (jr : join_request) (d : database)
    (fs : list bool) (n : list (option exn)) (c : Z) (t : list event)
    (v : Z) (a : option exn) :
  answer n 0 = None →
  (answer n 1 = Some (FloodWait v) ∧ answer n 2 = a)
  ∨ (answer n 1 = None ∧ answer n 2 = Some (FloodWait v) ∧ answer n 3 = a) →
  ∃ w' evs,
    add_request_to_queue jr (World (Some d) (true :: fs) n c t) = (inl tt, w')
    ∧ queue_of w' = requests_queue d
    ∧ trace w' = t ++ evs
    ∧ waits evs = [v]
    ∧ approvals evs = [(jr_chat_id jr, from_user_id jr, None);
                       (jr_chat_id jr, from_user_id jr, a)].
Proof.
  intros H0 Hflood.
  set (w1 := World (Some d) fs n c
                   (t ++ [EvLog ERROR (LogQueueFailed (OtherError "PyMongoError"))])).
  destruct (approve_single_request_view (jr_chat_id jr) (from_user_id jr)
              (from_user_first_name jr) (jr_chat_title jr) w1)
    as (w2 & evs & Hrun & Hq & Ht & He & _).
  apply same_queue_queue_of in Hq.
  assert (queue_of w2 = requests_queue d) as Hq2 by (by rewrite Hq).
  clear Hq.
  assert (waits evs = [v]
          ∧ approvals evs = [(jr_chat_id jr, from_user_id jr, None);
                             (jr_chat_id jr, from_user_id jr, a)]
          ∧ (worker_view (jr_chat_id jr) (from_user_id jr) (from_user_first_name jr)
                         (jr_chat_title jr) n).2
            = match a with None => inl true | Some e => inr e end) as (Hw & Ha & Hres).
  { rewrite <- (waits_effects evs), <- (approvals_effects evs), He. cbn [net w1].
    unfold worker_view. rewrite H0.
    destruct Hflood as [[-> <-]|(-> & -> & <-)]; by cbn. }
  unfold add_request_to_queue, try_except, bind, connected, utcnow,
    insert_request, store_op, log, emit, ret.
  cbn [db]. rewrite bool_decide_eq_true_2 by eauto.
  cbn [db db_faults net clock trace fst snd].
  fold w1. rewrite Hrun. cbn [net w1]. rewrite Hres.
  cbn [trace w1] in Ht.
  assert (∀ l1 l2, waits (l1 ++ l2) = waits l1 ++ waits l2) as Hwaits
    by (intros; apply omap_app).
  assert (∀ l1 l2, approvals (l1 ++ l2) = approvals l1 ++ approvals l2) as Happrovals
    by (intros; apply omap_app).
  destruct a as [e|].
  - destruct w2 as [d2 f2 n2 c2 t2]. cbn [trace] in Ht. subst t2.
    eexists _, ([EvLog ERROR (LogQueueFailed (OtherError "PyMongoError"))] ++ evs
                ++ [EvLog ERROR (LogFallbackFailed e)]).
    split; [reflexivity|]. split; [exact Hq2|].
    split; [cbn [trace]; by rewrite <- !(assoc_L (++))|].
    rewrite !Hwaits, !Happrovals, Hw, Ha. by split.
  - exists w2, ([EvLog ERROR (LogQueueFailed (OtherError "PyMongoError"))] ++ evs).
    split; [reflexivity|]. split; [exact Hq2|].
    split; [by rewrite Ht, <- (assoc_L (++))|].
    rewrite !Hwaits, !Happrovals, Hw, Ha. by split.
Qed.

(** [fallback_repeats_a_successful_approval] when the promotional photo is
    rate-limited and the second approval succeeds as well: the subject is
    approved twice. *)
Lemma fallback_repeats_a_successful_approval_witness :
  let jr := JoinRequest 7 "Ann" (-1001) "Group" in
  ∃ w' evs,
    add_request_to_queue jr
      (World (Some (Database ∅ ∅ [] ∅)) [true] [None; Some (FloodWait 5); None] 0 [])
    = (inl tt, w')
    ∧ queue_of w' = requests_queue (Database ∅ ∅ [] ∅)
    ∧ trace w' = [] ++ evs
    ∧ waits evs = [5]
    ∧ approvals evs = [(jr_chat_id jr, from_user_id jr, None);
                       (jr_chat_id jr, from_user_id jr, None)].
Proof.
  intros jr.
  apply (fallback_repeats_a_successful_approval jr (Database ∅ ∅ [] ∅) []
           [None; Some (FloodWait 5); None] 0 [] 5 None).
  - reflexivity.
  - left. split; reflexivity.
Defined.

(** ** Where the processor loses the worker's verdict *)

(** [process_request] drops the boolean the worker returns: whenever the
    worker returns, with [True] or with [False], and the store accepts the
    update, the document is marked processed and stamped [approved_at]. *)
Lemma process_request_ignores_result r w b w1 d1 :
  approve_single_request (chat_id r.2) (user_id r.2) (user_first_name r.2)
                         (chat_title r.2) w = (inl b, w1) →
  db w1 = Some d1 → head (db_faults w1) ≠ Some true →
  queue_of (process_request r w).2
  = alter (mark_processed (clock w1)) r.1 (requests_queue d1).
Proof.
  intros Hrun Hdb Hf. unfold process_request, try_except, bind. rewrite Hrun.
  destruct w1 as [d' f n c t]. cbn in Hdb, Hf. subst d'.
  by destruct f as [|[] f].
Qed.

(** C1, on the code.  A Pending item whose approval fails because the
    subject is unreachable (deactivated, invalid identity) or because the
    bot lacks the privilege is not marked Failed: after the turn its
    document is Processed, stamped [approved_at], with no error recorded on
    it, whatever its retry counter. *)
Theorem permanent_failure_is_marked_processed :
  Forall (λ e,
    Forall (λ k,
      let item := RequestDoc 100 (-1001) 7 "Ann" "Group" false (Some k) None None None in
      let w := World (Some (Database ∅ ∅ [] {[1%positive := item]})) [] [Some e] 200 [] in
      status_of item = Pending
      ∧ approve_single_request (-1001) 7 "Ann" "Group" w
        = (inl false,
           World (Some (Database ∅ ∅ [StatDoc 200 (-1001) 7 false (Some (str e))]
                                 {[1%positive := item]}))
                 [] [] 200
                 [EvCall (Approve (-1001) 7) (Some e);
                  EvLog (match e with ChatAdminRequired => ERROR | _ => WARNING end)
                        (match e with
                         | ChatAdminRequired => LogLacksPermission (-1001) e
                         | _ => LogCannotApprove "Ann" e
                         end)])
      ∧ queue_of (process_queue_iteration w).2 !! 1%positive
        = Some (RequestDoc 100 (-1001) 7 "Ann" "Group" true (Some k) (Some 200) None None)
      ∧ status_of (RequestDoc 100 (-1001) 7 "Ann" "Group" true (Some k) (Some 200) None None)
        = Processed)
      [0; 1; 2])
    [UserDeactivated; PeerIdInvalid; ChatAdminRequired].
Proof. repeat constructor. Qed.

(** C2, on the code.  A Pending item whose approval fails with any other
    error is not retried: the worker returns [False], the processor marks
    the document Processed and leaves its retry counter alone.  The retry
    branch of the processor is reached only by an exception that escapes
    the worker, which happens when the approval repeated after a rate-limit
    wait fails: then the counter is incremented and the item stays
    Pending. *)
Theorem other_failure_is_marked_processed :
  let item := RequestDoc 100 (-1001) 7 "Ann" "Group" false (Some 0) None None None in
  let store := Some (Database ∅ ∅ [] {[1%positive := item]}) in
  let w := World store [] [Some (OtherError "RPC")] 200 [] in
  let w_escaped := World store [] [Some (FloodWait 4); Some (OtherError "RPC")] 200 [] in
  status_of item = Pending
  ∧ (approve_single_request (-1001) 7 "Ann" "Group" w).1 = inl false
  ∧ queue_of (process_queue_iteration w).2 !! 1%positive
    = Some (RequestDoc 100 (-1001) 7 "Ann" "Group" true (Some 0) (Some 200) None None)
  ∧ status_of (RequestDoc 100 (-1001) 7 "Ann" "Group" true (Some 0) (Some 200) None None)
    = Processed
  ∧ (approve_single_request (-1001) 7 "Ann" "Group" w_escaped).1 = inr (OtherError "RPC")
  ∧ queue_of (process_queue_iteration w_escaped).2 !! 1%positive
    = Some (RequestDoc 100 (-1001) 7 "Ann" "Group" false (Some 1) None None None).
Proof. repeat split. Qed.

(** C3, on the code.  When the first approval is rate-limited and the
    repeated approval succeeds, the worker returns [True] and records the
    statistics, but it sends neither the promotional photo nor the
    confirmation message; an approval that succeeds at once sends both. *)
Theorem retried_approval_sends_no_message :
  let store := Some (Database ∅ ∅ [] ∅) in
  let retried := approve_single_request (-1001) 7 "Ann" "Group"
                   (World store [] [Some (FloodWait 5); None] 200 []) in
  let direct := approve_single_request (-1001) 7 "Ann" "Group"
                  (World store [] [None] 200 []) in
  retried.1 = inl true
  ∧ effects (trace retried.2)
    = [EvCall (Approve (-1001) 7) (Some (FloodWait 5)); EvSleep 5;
       EvCall (Approve (-1001) 7) None]
  ∧ notifications (trace retried.2) = []
  ∧ (stats_collection <$> db retried.2) = Some [StatDoc 205 (-1001) 7 true None]
  ∧ direct.1 = inl true
  ∧ notifications (trace direct.2) = [SendPhoto 7; SendMessage 7 "Ann" "Group"]
  ∧ (stats_collection <$> db direct.2) = Some [StatDoc 200 (-1001) 7 true None].
Proof. repeat split. Qed.

(** ** The retry counter *)

(** The enqueue path leaves the queue as it is or inserts the new
    request. *)
Lemma add_request_to_queue_queue jr w :
  queue_of (add_request_to_queue jr w).2 = queue_of w
  ∨ ∃ id now, queue_of (add_request_to_queue jr w).2
              = <[id := new_request now jr]> (queue_of w).
Proof.
  destruct w as [[d|] f n c t]; [|by left].
  unfold add_request_to_queue, try_except, bind, connected, utcnow,
    insert_request, store_op, log, emit, ret.
  cbn [db]. rewrite bool_decide_eq_true_2 by eauto.
  cbn [db db_faults net clock trace fst snd].
  destruct f as [|[] f]; cbn [db db_faults net clock trace fst snd];
    [right; by eexists _, _| |right; by eexists _, _].
  left.
  match goal with
  | |- context [approve_single_request ?a ?b ?c ?d ?w] =>
      destruct (approve_single_request_view a b c d w) as (w2 & evs & -> & Hq & _)
  end.
  apply same_queue_queue_of in Hq.
  by destruct ((worker_view _ _ _ _ _).2) as [b|e].
Qed.

Lemma well_counted_insert q id now jr :
  well_counted q → well_counted (<[id := new_request now jr]> q).
Proof.
  intros Hq id' r Hr Hp. destruct (decide (id = id')) as [->|Hne].
  - rewrite lookup_insert_eq in Hr. injection Hr as <-. cbn. split; [done|].
    exists 0. split; [done|lia].
  - rewrite lookup_insert_ne in Hr by done. eauto.
Qed.

Lemma well_counted_step q q' :
  well_counted q → (∀ id, item_step q q' id) → well_counted q'.
Proof.
  intros Hq Hstep id r' Hr' Hp'. specialize (Hstep id). unfold item_step in Hstep.
  destruct (q !! id) as [r|] eqn:Hr; [|congruence].
  destruct Hstep as (r2 & Hr2 & Ht).
  assert (r2 = r') as -> by congruence.
  destruct Ht as [|Hp Hlt|now Hp|err Hp Hge].
  - eauto.
  - destruct (Hq id r Hr Hp) as (Hf & k & Hk & Hk02).
    cbn. rewrite Hk in Hlt |- *. cbn in *. split; [done|].
    exists (k + 1). split; [done|lia].
  - apply status_of_pending in Hp'. discriminate.
  - apply status_of_pending in Hp'. discriminate.
Qed.

(** The counter invariant holds in every reachable world. *)
Lemma reachable_well_counted w : reachable w → well_counted (queue_of w).
Proof.
  induction 1 as [w Hw|w w' _ IH Hq|w jr _ IH|w _ IH].
  - rewrite Hw. intros id r Hr. by rewrite lookup_empty in Hr.
  - by rewrite (same_queue_queue_of _ _ Hq).
  - unfold handle_join_request.
    destruct (add_request_to_queue_queue jr w) as [->|(id & now & ->)];
      auto using well_counted_insert.
  - eapply well_counted_step; [done|]. apply process_queue_iteration_step.
Qed.

(** C4 as stated fails.  A request is enqueued and each turn of the
    processor meets a rate limit and then an error: after two turns the
    item is Pending with counter 2, the third turn moves it to Failed, and
    the stored counter is still 2, not 3. *)
Lemma exhausted_item_stores_two_retries :
  let answers := [Some (FloodWait 1); Some (OtherError "RPC")] in
  let turn w := (process_queue_iteration
                   (World (db w) [] answers (clock w) (trace w))).2 in
  let w1 := (handle_join_request (JoinRequest 7 "Ann" (-1001) "Group")
               (World (Some (Database ∅ ∅ [] ∅)) [] [] 0 [])).2 in
  queue_of (turn (turn w1)) !! 1%positive
  = Some (RequestDoc 0 (-1001) 7 "Ann" "Group" false (Some 2) None None None)
  ∧ queue_of (turn (turn (turn w1))) !! 1%positive
    = Some (RequestDoc 0 (-1001) 7 "Ann" "Group" true (Some 2) None (Some "RPC") (Some true))
  ∧ status_of (RequestDoc 0 (-1001) 7 "Ann" "Group" true (Some 2) None (Some "RPC") (Some true))
    = Failed
  ∧ retries (RequestDoc 0 (-1001) 7 "Ann" "Group" true (Some 2) None (Some "RPC") (Some true))
    ≠ Some 3.
Proof. repeat split. discriminate. Qed.

(** C4, amended.  In a reachable state, when a turn of the processor moves
    a Pending item to Failed, the failing attempt is the third one: the
    counter stored before the turn is 2 (one less than the limit of 3), the
    update that marks the item failed does not change it, so the stored
    counter is 2 at the Failed transition and never more. *)
Theorem failed_item_stores_two_retries (w : world) (id : positive) (r r' : request_doc) :
  reachable w →
  queue_of w !! id = Some r →
  queue_of (process_queue_iteration w).2 !! id = Some r' →
  status_of r = Pending →
  status_of r' = Failed →
  retries r = Some 2
  ∧ retries r' = Some 2
  ∧ default 0 (retries r) + 1 = 3
  ∧ ∃ err, r' = mark_failed err r.
Proof.
  intros Hw Hr Hr' Hp Hf.
  destruct (reachable_well_counted w Hw id r Hr Hp) as (Hnf & k & Hk & Hk02).
  pose proof (process_queue_iteration_step w id) as Hstep.
  unfold item_step in Hstep. rewrite Hr in Hstep.
  destruct Hstep as (r2 & Hr2 & Ht). assert (r2 = r') as -> by congruence.
  destruct Ht as [|Hp2 Hlt|now Hp2|err Hp2 Hge].
  - congruence.
  - rewrite status_of_inc_retries in Hf. congruence.
  - unfold status_of in Hf. cbn in Hf. rewrite Hnf in Hf. discriminate.
  - rewrite Hk in Hge |- *. cbn in *.
    assert (k = 2) as -> by lia. eauto.
Qed.

(** [failed_item_stores_two_retries] on the third failing turn of an
    enqueued request. *)
Lemma failed_item_stores_two_retries_witness :
  let answers := [Some (FloodWait 1); Some (OtherError "RPC")] in
  let turn w := (process_queue_iteration
                   (World (db w) [] answers (clock w) (trace w))).2 in
  let w1 := (handle_join_request (JoinRequest 7 "Ann" (-1001) "Group")
               (World (Some (Database ∅ ∅ [] ∅)) [] [] 0 [])).2 in
  let w3 := turn (turn w1) in
  let r := RequestDoc 0 (-1001) 7 "Ann" "Group" false (Some 2) None None None in
  let r' := RequestDoc 0 (-1001) 7 "Ann" "Group" true (Some 2) None (Some "RPC") (Some true) in
  retries r = Some 2
  ∧ retries r' = Some 2
  ∧ default 0 (retries r) + 1 = 3
  ∧ ∃ err, r' = mark_failed err r.
Proof.
  intros answers turn w1 w3 r r'.
  apply (failed_item_stores_two_retries
           (World (db w3) [] answers (clock w3) (trace w3)) 1%positive r r').
  - apply (reach_frame w3); [|reflexivity].
    apply reach_turn. apply (reach_frame (turn w1)); [|reflexivity].
    apply reach_turn. apply (reach_frame w1); [|reflexivity].
    apply reach_join. apply reach_start. reflexivity.
  - reflexivity.
  - reflexivity.
  - reflexivity.
  - reflexivity.
Defined.

(** ** Broadcast *)

Lemma outcomes_app l1 l2 : outcomes (l1 ++ l2) = outcomes l1 ++ outcomes l2.
Proof. apply omap_app. Qed.

Lemma delivered_app l1 l2 : delivered (l1 ++ l2) = (delivered l1 + delivered l2)%nat.
Proof. unfold delivered. by rewrite filter_app, length_app. Qed.

Lemma undelivered_app l1 l2 : undelivered (l1 ++ l2) = (undelivered l1 + undelivered l2)%nat.
Proof. unfold undelivered. by rewrite filter_app, length_app. Qed.

Lemma delivered_one u (b : bool) : delivered [(u, b)] = if b then 1%nat else 0%nat.
Proof. by destruct b. Qed.

Lemma undelivered_one u (b : bool) : undelivered [(u, b)] = if b then 0%nat else 1%nat.
Proof. by destruct b. Qed.

Lemma delivered_undelivered os : (delivered os + undelivered os = length os)%nat.
Proof.
  induction os as [|[u []] os IH]; [done|..];
    unfold delivered, undelivered in *; rewrite !filter_cons; cbn;
    repeat case_decide; try done; cbn; lia.
Qed.

(** A trace in which every wait is honoured can be continued by another. *)
Lemma retried_after_wait_app l1 l2 :
  retried_after_wait l1 = true → retried_after_wait l2 = true →
  retried_after_wait (l1 ++ l2) = true.
Proof.
  intros H1 H2. induction l1 as [|ev l1 IH]; [done|].
  destruct ev as [[? ?|?|? ? ?|u|?|?] [[v| | | |?]|]|?|? ?];
    try (cbn in *; by auto).
  destruct l1 as [|[?|s|] l1]; try done.
  destruct l1 as [|[[? ?|?|? ? ?|u'|?|?] a'|?|? ?] l1]; try done.
  apply andb_true_iff in H1 as [Hv H1].
  change (bool_decide (s = v ∧ u' = u)
          && retried_after_wait ((EvSleep s :: EvCall (CopyTo u') a' :: l1) ++ l2)
          = true).
  rewrite Hv. cbn [andb]. auto.
Qed.

(** The answers to come hold no longer run of rate-limit signals after
    some of them have been used. *)
Lemma leading_floods_longest n : (leading_floods n ≤ longest_flood_run n)%nat.
Proof. destruct n; [done|]. cbn [longest_flood_run]. lia. Qed.

Lemma longest_flood_run_drop k n :
  (longest_flood_run (drop k n) ≤ longest_flood_run n)%nat.
Proof.
  revert n. induction k as [|k IH]; intros n; [by rewrite drop_0|].
  destruct n as [|a n]; [done|]. cbn [drop longest_flood_run].
  specialize (IH n). lia.
Qed.

Lemma longest_flood_run_tail n :
  (longest_flood_run (tail n) ≤ longest_flood_run n)%nat.
Proof. destruct n as [|a n]; [done|]. cbn [tail longest_flood_run]. lia. Qed.

(** One delivery: the copy is repeated after each rate-limit signal until
    an answer that is not one; with room for as many nested calls as there
    are signals in a row, it does not raise. *)
Lemma copy_message_to_user_spec depth user w :
  (leading_floods (net w) ≤ depth)%nat →
  ∃ ok w' a rest,
    copy_message_to_user depth user w = (inl ok, w')
    ∧ trace w' = trace w ++ EvCall (CopyTo user) a :: rest
    ∧ outcomes (EvCall (CopyTo user) a :: rest) = [(user, ok)]
    ∧ retried_after_wait (EvCall (CopyTo user) a :: rest) = true
    ∧ db w' = db w
    ∧ net w' = drop (S (leading_floods (net w))) (net w).
Proof.
  revert w. induction depth as [|depth IH]; intros [d f n c t] Hlen; cbn in Hlen.
  - destruct n as [|[[v| | | |msg]|] n]; cbn in Hlen; try lia.
    + by eexists true, _, None, [].
    + eexists false, _, (Some UserDeactivated), [_].
      split; [reflexivity|]. cbn. by rewrite <- (assoc_L (++)).
    + eexists false, _, (Some PeerIdInvalid), [_].
      split; [reflexivity|]. cbn. by rewrite <- (assoc_L (++)).
    + eexists false, _, (Some ChatAdminRequired), [_].
      split; [reflexivity|]. cbn. by rewrite <- (assoc_L (++)).
    + eexists false, _, (Some (OtherError msg)), [_].
      split; [reflexivity|]. cbn. by rewrite <- (assoc_L (++)).
    + by eexists true, _, None, [].
  - destruct n as [|[[v| | | |msg]|] n].
    + by eexists true, _, None, [].
    + destruct (IH (World d f n (c + Z.max 0 v)
                      ((t ++ [EvCall (CopyTo user) (Some (FloodWait v))]) ++ [EvSleep v])))
        as (ok & w' & a & rest & Hrun & Ht & Ho & Hr & Hd & Hn).
      { cbn in *. lia. }
      exists ok, w', (Some (FloodWait v)), (EvSleep v :: EvCall (CopyTo user) a :: rest).
      split; [exact Hrun|]. cbn [trace] in Ht.
      split; [by rewrite Ht, <- !(assoc_L (++))|].
      split; [exact Ho|]. split; [|done].
      cbn [retried_after_wait]. rewrite bool_decide_eq_true_2 by done. exact Hr.
    + eexists false, _, (Some UserDeactivated), [_].
      split; [reflexivity|]. cbn. by rewrite <- (assoc_L (++)).
    + eexists false, _, (Some PeerIdInvalid), [_].
      split; [reflexivity|]. cbn. by rewrite <- (assoc_L (++)).
    + eexists false, _, (Some ChatAdminRequired), [_].
      split; [reflexivity|]. cbn. by rewrite <- (assoc_L (++)).
    + eexists false, _, (Some (OtherError msg)), [_].
      split; [reflexivity|]. cbn. by rewrite <- (assoc_L (++)).
    + by eexists true, _, None, [].
Qed.


Arguments copy_message_to_user : simpl never.

(** The body of the broadcast loop counts the recipient once, as the
    delivery ended; a progress update that fails changes nothing. *)
Lemma broadcast_to_user_spec depth total s f user w :
  (longest_flood_run (net w) ≤ depth)%nat →
  ∃ (ok : bool) w' evs,
    broadcast_to_user depth total (s, f) user w
    = (inl (if ok then (S s, f) else (s, S f)), w')
    ∧ trace w' = trace w ++ evs
    ∧ outcomes evs = [(row_user_id user, ok)]
    ∧ retried_after_wait evs = true
    ∧ db w' = db w
    ∧ (longest_flood_run (net w') ≤ depth)%nat.
Proof.
  intros Hrun_len.
  destruct (copy_message_to_user_spec depth (row_user_id user) w)
    as (ok & [d1 f1 n1 c1 t1] & a & rest & Hrun & Ht & Ho & Hr & Hd & Hn).
  { pose proof (leading_floods_longest (net w)). lia. }
  cbn [trace db net] in Ht, Hd, Hn. subst t1 d1.
  assert (longest_flood_run n1 ≤ depth)%nat as Hn1.
  { rewrite Hn. pose proof (longest_flood_run_drop (S (leading_floods (net w))) (net w)). lia. }
  clear Hn.
  unfold broadcast_to_user, bind. rewrite Hrun. cbn [fst snd].
  exists ok.
  replace (if ok then (S s, f) else (s, S f))
    with (if ok then S s else s, if ok then f else S f) by (by destruct ok).
  assert (∀ text b,
    retried_after_wait ((EvCall (CopyTo (row_user_id user)) a :: rest)
                        ++ [EvCall (EditText text) b])
    = true) as Hr'.
  { intros. by apply retried_after_wait_app. }
  assert (∀ text b,
    outcomes ((EvCall (CopyTo (row_user_id user)) a :: rest) ++ [EvCall (EditText text) b])
    = [(row_user_id user, ok)]) as Ho'.
  { intros. rewrite outcomes_app, Ho. by destruct b as [[]|]. }
  pose proof (longest_flood_run_tail n1) as Htail.
  case_bool_decide.
  - unfold try_except, telegram, ret. cbn [db db_faults net clock trace].
    destruct n1 as [|[e|] n1]; cbn [tail] in *;
      (eexists _, (_ ++ [_]); split; [reflexivity|];
       split; [by rewrite (assoc_L (++))|];
       split; [by auto|]; split; [by auto|]; split; [done|]; cbn [net]; lia).
  - eexists _, _. split; [reflexivity|]. by auto.
Qed.


Arguments broadcast_to_user : simpl never.

Lemma broadcast_users_spec depth total users s f w :
  (longest_flood_run (net w) ≤ depth)%nat →
  ∃ w' evs,
    for_fold users (broadcast_to_user depth total) (s, f) w
    = (inl ((s + delivered (outcomes evs))%nat, (f + undelivered (outcomes evs))%nat), w')
    ∧ trace w' = trace w ++ evs
    ∧ (outcomes evs).*1 = row_user_id <$> users
    ∧ retried_after_wait evs = true
    ∧ db w' = db w.
Proof.
  revert s f w. induction users as [|user users IH]; intros s f w Hlen.
  { exists w, []. cbn. rewrite app_nil_r, !Nat.add_0_r. by auto. }
  destruct (broadcast_to_user_spec depth total s f user w Hlen)
    as (ok & w1 & evs1 & Hrun & Ht1 & Ho1 & Hr1 & Hd1 & Hlen1).
  cbn [for_fold]. unfold bind. rewrite Hrun.
  destruct ok.
  - destruct (IH (S s) f w1 Hlen1) as (w' & evs & -> & Ht & Ho & Hr & Hd).
    exists w', (evs1 ++ evs).
    rewrite outcomes_app, delivered_app, undelivered_app, Ho1, fmap_app, Ho,
      delivered_one, undelivered_one.
    split; [do 3 f_equal; lia|].
    split; [by rewrite Ht, Ht1, (assoc_L (++))|].
    split; [done|]. split; [by apply retried_after_wait_app|congruence].
  - destruct (IH s (S f) w1 Hlen1) as (w' & evs & -> & Ht & Ho & Hr & Hd).
    exists w', (evs1 ++ evs).
    rewrite outcomes_app, delivered_app, undelivered_app, Ho1, fmap_app, Ho,
      delivered_one, undelivered_one.
    split; [do 3 f_equal; lia|].
    split; [by rewrite Ht, Ht1, (assoc_L (++))|].
    split; [done|]. split; [by apply retried_after_wait_app|congruence].
Qed.

(** Chunking only groups the recipients: the nested loops visit the list
    once, in order. *)
Lemma for_fold_app {A S} (l1 l2 : list A) (body : S → A → M S) acc w :
  for_fold (l1 ++ l2) body acc w
  = match for_fold l1 body acc w with
    | (inl acc', w') => for_fold l2 body acc' w'
    | (inr e, w') => (inr e, w')
    end.
Proof.
  revert acc w. induction l1 as [|x l1 IH]; intros acc w; [done|].
  cbn [for_fold app]. unfold bind. destruct (body acc x w) as [[acc'|e] w']; [|done].
  apply IH.
Qed.

Lemma for_fold_chunks {A B S} (chunk : B → list A) (starts : list B)
    (body : S → A → M S) acc w :
  for_fold starts (λ acc i, for_fold (chunk i) body acc) acc w
  = for_fold (concat (chunk <$> starts)) body acc w.
Proof.
  revert acc w. induction starts as [|i starts IH]; intros acc w; [done|].
  cbn [for_fold fmap list_fmap concat]. rewrite for_fold_app. unfold bind.
  destruct (for_fold (chunk i) body acc w) as [[acc'|e] w']; [|done].
  apply IH.
Qed.

Lemma slices_concat {A} (step : nat) (l : list A) (n : nat) :
  (length l ≤ n * step)%nat →
  concat ((λ i, slice l i step) <$> ((λ k, k * step)%nat <$> seq 0 n)) = l.
Proof.
  revert l. induction n as [|n IH]; intros l Hlen.
  { destruct l; [done|cbn in Hlen; lia]. }
  rewrite <- cons_seq, <- fmap_S_seq, !fmap_cons, <- !list_fmap_compose. cbn [concat].
  unfold slice at 1. rewrite Nat.mul_0_l, drop_0.
  transitivity (take step l ++ drop step l); [|apply take_drop]. f_equal.
  rewrite <- (IH (drop step l)) by (rewrite length_drop; lia).
  rewrite <- !list_fmap_compose.
  f_equal. apply list_fmap_ext. intros _ k _. cbn. unfold slice.
  rewrite drop_drop. do 2 f_equal; lia.
Qed.

Lemma range_step_slices {A} (l : list A) :
  concat ((λ i, slice l i 20) <$> range_step (length l) 20) = l.
Proof.
  unfold range_step. apply slices_concat.
  pose proof (Nat.div_mod_eq (length l + 20 - 1) 20).
  pose proof (Nat.mod_upper_bound (length l + 20 - 1) 20). lia.
Qed.

Lemma broadcast_chunks_flat depth users counters w :
  broadcast_chunks depth users counters w
  = for_fold users (broadcast_to_user depth (length users)) counters w.
Proof.
  unfold broadcast_chunks. rewrite for_fold_chunks. by rewrite range_step_slices.
Qed.

Lemma telegram_spec c w :
  ∃ a, telegram c w
       = (match a with None => inl tt | Some e => inr e end,
          World (db w) (db_faults w) (tail (net w)) (clock w) (trace w ++ [EvCall c a])).
Proof.
  unfold telegram. destruct (net w) as [|[e|] n]; [by exists None|by exists (Some e)|by exists None].
Qed.

(** The recipient list is fetched without a Telegram call and without
    raising. *)
Lemma fetch_all_users_spec w :
  ∃ users w' logs,
    fetch_all_users w = (inl users, w')
    ∧ trace w' = trace w ++ logs
    ∧ net w' = net w
    ∧ outcomes logs = [] ∧ retried_after_wait logs = true.
Proof.
  destruct w as [[d|] f n c t].
  - destruct f as [|[] f]; by eexists _, _, [_].
  - exists [], (World None f n c t), []. cbn. by rewrite app_nil_r.
Qed.

Arguments fetch_all_users : simpl never.
Arguments telegram : simpl never.

(** Within the room the recursion limit leaves, a broadcast visits the
    recipients of the list it was given once each, in order.  The delivery
    to a recipient is repeated, after a sleep of the signalled duration, as
    long as it is rate-limited; it ends when the copy goes through or fails
    with another error, and the recipient is then counted as successful or
    failed accordingly.  The counters grow by the number of deliveries that
    ended well and by the number that ended with an error, which together
    make the length of the list. *)
Lemma broadcast_counts_every_recipient depth users counters w :
  (longest_flood_run (net w) ≤ depth)%nat →
  ∃ w' evs,
    broadcast_chunks depth users counters w
    = (inl ((counters.1 + delivered (outcomes evs))%nat,
            (counters.2 + undelivered (outcomes evs))%nat), w')
    ∧ trace w' = trace w ++ evs
    ∧ (outcomes evs).*1 = row_user_id <$> users
    ∧ retried_after_wait evs = true
    ∧ (delivered (outcomes evs) + undelivered (outcomes evs) = length users)%nat.
Proof.
  intros Hlen. destruct counters as [s f]. rewrite broadcast_chunks_flat.
  destruct (broadcast_users_spec depth (length users) users s f w Hlen)
    as (w' & evs & Hrun & Ht & Ho & Hr & _).
  exists w', evs. repeat split; try done.
  rewrite delivered_undelivered, <- (length_fmap fst), Ho. apply length_fmap.
Qed.

(** Within the room the recursion limit leaves, the handler fetches the
    list once and reports these counters with the total; it raises only if
    a status message of its own cannot be sent. *)
Lemma broadcast_reports_the_counters depth w :
  (longest_flood_run (net w) ≤ depth)%nat →
  ∃ users evs (successful failed_sends : nat),
    (fetch_all_users (telegram (Reply Preparing) w).2).1 = inl users
    ∧ trace (handle_broadcast_message depth w).2 = trace w ++ evs
    ∧ (successful + failed_sends = length users)%nat
    ∧ match (handle_broadcast_message depth w).1 with
      | inl _ =>
          last evs = Some (EvCall (EditText (Completed (length users) successful
                                                       failed_sends)) None)
          ∧ successful = delivered (outcomes evs)
          ∧ failed_sends = undelivered (outcomes evs)
          ∧ (outcomes evs).*1 = row_user_id <$> users
          ∧ retried_after_wait evs = true
      | inr e =>
          last evs = Some (EvCall (Reply Preparing) (Some e))
          ∨ last evs = Some (EvCall (EditText (Starting (length users))) (Some e))
          ∨ last evs = Some (EvCall (EditText (Completed (length users) successful
                                                         failed_sends)) (Some e))
      end.
Proof.
  intros Hlen.
  unfold handle_broadcast_message, bind.
  destruct (telegram_spec (Reply Preparing) w) as (a1 & ->). cbn [snd].
  set (w1 := World _ _ _ _ _).
  destruct (fetch_all_users_spec w1) as (users & w2 & logs & Hfetch & Ht2 & Hn2 & Ho2 & Hr2).
  rewrite Hfetch. cbn [fst]. exists users.
  destruct a1 as [e1|].
  { exists [EvCall (Reply Preparing) (Some e1)], (length users), 0%nat.
    cbn. repeat split; auto with lia. }
  destruct (telegram_spec (EditText (Starting (length users))) w2) as (a2 & ->).
  set (w3 := World _ _ _ _ _).
  destruct a2 as [e2|].
  { exists ([EvCall (Reply Preparing) None] ++ logs
            ++ [EvCall (EditText (Starting (length users))) (Some e2)]),
      (length users), 0%nat.
    cbn [fst snd trace w3]. rewrite Ht2. cbn [trace w1].
    split; [done|]. split; [by rewrite <- !(assoc_L (++))|]. split; [lia|].
    right; left. by rewrite !(assoc_L (++)), last_snoc. }
  assert (longest_flood_run (net w3) ≤ depth)%nat as Hlen3.
  { cbn [net w3]. rewrite Hn2. cbn [net w1].
    pose proof (longest_flood_run_tail (tail (net w))).
    pose proof (longest_flood_run_tail (net w)). lia. }
  destruct (broadcast_counts_every_recipient depth users (0, 0)%nat w3 Hlen3)
    as (w4 & evs & -> & Ht4 & Ho4 & Hr4 & Hsum).
  cbn [fst snd] in *.
  destruct (telegram_spec (EditText (Completed (length users)
              (0 + delivered (outcomes evs)) (0 + undelivered (outcomes evs)))) w4)
    as (a3 & ->).
  exists ([EvCall (Reply Preparing) None] ++ logs
          ++ [EvCall (EditText (Starting (length users))) None] ++ evs
          ++ [EvCall (EditText (Completed (length users)
                (0 + delivered (outcomes evs)) (0 + undelivered (outcomes evs)))) a3]),
    (0 + delivered (outcomes evs))%nat, (0 + undelivered (outcomes evs))%nat.
  split; [done|].
  split.
  { destruct a3; cbn [fst snd trace]; rewrite Ht4; cbn [trace w3]; rewrite Ht2;
      cbn [trace w1]; by rewrite <- !(assoc_L (++)). }
  split; [lia|].
  assert (∀ l, last ([EvCall (Reply Preparing) None] ++ logs
          ++ [EvCall (EditText (Starting (length users))) None] ++ evs ++ [l]) = Some l)
    as Hlast by (intros; rewrite !(assoc_L (++)); apply last_snoc).
  destruct a3 as [e3|]; cbn [fst].
  { right; right. apply Hlast. }
  split; [apply Hlast|].
  rewrite !outcomes_app, Ho2. cbn [outcomes omap app]. rewrite app_nil_r.
  repeat split; try done; try lia.
  repeat (apply retried_after_wait_app; try done).
Qed.

(** The scenario of a hundred recipients of which the 37th and the 52nd
    fail with an error that is not a rate limit: the report counts 98
    successful and 2 failed. *)
Example broadcast_hundred_recipients :
  let users := list_to_map ((λ k, (Z.of_nat k, UserDoc "user" None 0)) <$> seq 1 100) in
  let answers := replicate 41 None ++ [Some (OtherError "blocked")]
                 ++ replicate 16 None ++ [Some UserDeactivated] in
  let run := handle_broadcast_message 990
               (World (Some (Database users ∅ [] ∅)) [] answers 0 []) in
  run.1 = inl tt
  ∧ last (trace run.2) = Some (EvCall (EditText (Completed 100 98 2)) None)
  ∧ snd <$> (outcomes (trace run.2)) !! 36%nat = Some false
  ∧ snd <$> (outcomes (trace run.2)) !! 51%nat = Some false
  ∧ undelivered (outcomes (trace run.2)) = 2%nat.
Proof. vm_compute. repeat split. Qed.



(** The same for the whole handler: two recipients, room for two nested
    calls, and three rate-limit signals in a row for the first recipient.
    The handler raises; the second recipient is never contacted and the
    final report is never sent. *)
Example broadcast_abandoned_at_recursion_limit :
  let users := {[7 := UserDoc "Ann" None 50; 8 := UserDoc "Bob" None 60]} in
  let answers := [None; None; Some (FloodWait 1); Some (FloodWait 1); Some (FloodWait 1)] in
  let run := handle_broadcast_message 2
               (World (Some (Database users ∅ [] ∅)) [] answers 0 []) in
  run.1 = inr (OtherError "RecursionError")
  ∧ outcomes (trace run.2) = []
  ∧ effects (trace run.2)
    = [EvCall (Reply Preparing) None; EvCall (EditText (Starting 2)) None;
       EvCall (CopyTo 7) (Some (FloodWait 1)); EvSleep 1;
       EvCall (CopyTo 7) (Some (FloodWait 1)); EvSleep 1;
       EvCall (CopyTo 7) (Some (FloodWait 1)); EvSleep 1].
Proof. vm_compute. repeat split. Qed.

(** * Further properties *)

(** ** A healthy store *)

Ltac run_healthy n :=
  destruct n as [|[[]|] n]; cbn;
  try solve [eexists _, _, _, _; split; reflexivity].

(** When the store is connected and none of its operations fails, the
    worker leaves it so, and leaves the queue alone. *)
Lemma approve_single_request_healthy chat user first_name title d n c t :
  ∃ d' n' c' t',
    approve_single_request chat user first_name title (World (Some d) [] n c t)
    = ((worker_view chat user first_name title n).2, World (Some d') [] n' c' t')
    ∧ requests_queue d' = requests_queue d.
Proof.
  unfold approve_single_request, update_stats, save_user, try_except, bind, connected,
    utcnow, store_op, telegram, log, emit, sleep, ret; cbn.
  run_healthy n. all: run_healthy n. all: run_healthy n. all: run_healthy n.
Qed.

Lemma process_request_healthy id request d n c t :
  ∃ d' n' c' t' u,
    process_request (id, request) (World (Some d) [] n c t)
    = (inl tt, World (Some d') [] n' c' t')
    ∧ request_update request u
    ∧ requests_queue d' = alter u id (requests_queue d).
Proof.
  unfold process_request, try_except, bind. cbn [fst snd].
  destruct (approve_single_request_healthy (chat_id request) (user_id request)
              (user_first_name request) (chat_title request) d n c t)
    as (d1 & n1 & c1 & t1 & -> & Hq).
  destruct ((worker_view _ _ _ _ _).2) as [b|e].
  - eexists _, _, _, _, _. cbn. rewrite Hq.
    split; [reflexivity|]. split; [apply update_processed|reflexivity].
  - cbn. case_bool_decide; cbn; rewrite Hq; eexists _, _, _, _, _;
      (split; [reflexivity|]); (split; [|reflexivity]).
    + by apply update_failed.
    + apply update_retry. lia.
Qed.

Lemma for_each_process_request_healthy batch d n c t :
  NoDup batch.*1 →
  ∃ d' n' c' t',
    for_each batch process_request (World (Some d) [] n c t)
    = (inl tt, World (Some d') [] n' c' t')
    ∧ (∀ id, id ∉ batch.*1 → requests_queue d' !! id = requests_queue d !! id)
    ∧ (∀ id request, (id, request) ∈ batch →
         ∃ u, request_update request u
              ∧ requests_queue d' !! id = u <$> requests_queue d !! id).
Proof.
  revert d n c t. induction batch as [|[id0 r0] batch IH]; intros d n c t Hnd.
  { eexists _, _, _, _. split; [reflexivity|]. split; [done|]. by intros ?? ?%elem_of_nil. }
  rewrite fmap_cons in Hnd. apply NoDup_cons in Hnd as [Hid0 Hnd].
  rewrite for_each_cons.
  destruct (process_request_healthy id0 r0 d n c t)
    as (d1 & n1 & c1 & t1 & u & -> & Hu & Hq1).
  destruct (IH d1 n1 c1 t1 Hnd) as (d' & n' & c' & t' & -> & Hout & Hin).
  exists d', n', c', t'. split; [done|]. split.
  - intros id Hid. apply not_elem_of_cons in Hid as [Hne Hid].
    rewrite (Hout id Hid), Hq1. by rewrite lookup_alter_ne.
  - intros id request [Heq|Hr]%elem_of_cons.
    + injection Heq as -> ->. exists u. split; [done|].
      rewrite (Hout id0 Hid0), Hq1. by rewrite lookup_alter_eq.
    + destruct (Hin id request Hr) as (u' & Hu' & Hq'). exists u'. split; [done|].
      rewrite Hq', Hq1. rewrite lookup_alter_ne; [done|].
      intros <-. apply Hid0. by apply (list_elem_of_fmap_2 fst) in Hr.
Qed.

(** X2.  While the store is connected and none of its operations fails, a
    turn of the loop skips no fetched request, whatever Telegram answers:
    the document of each request of the batch gets exactly one of the three
    updates (marked processed, marked failed on the third failure, or its
    retry counter incremented), every other document is left as it is, and
    the turn ends with the one-second sleep, not on the error path. *)
Theorem healthy_store_settles_every_fetched_request
    (d : database) (n : list (option exn)) (c : Z) (t : list event) :
  let w := World (Some d) [] n c t in
  let batch := find_unprocessed 10 (requests_queue d) in
  (∀ id request, (id, request) ∈ batch →
     ∃ u, request_update request u
          ∧ queue_of (process_queue_iteration w).2 !! id = Some (u request))
  ∧ (∀ id, id ∉ batch.*1 →
       queue_of (process_queue_iteration w).2 !! id = requests_queue d !! id)
  ∧ last (trace (process_queue_iteration w).2) = Some (EvSleep 1).
Proof.
  intros w batch.
  pose proof (find_unprocessed_NoDup 10 (requests_queue d)) as Hnd.
  pose proof (find_unprocessed_elem 10 (requests_queue d)) as Hin.
  unfold process_queue_iteration, try_except, bind, fetch_batch, store_op, w.
  cbn [db db_faults net clock trace tail]. fold batch in Hnd, Hin |- *.
  unfold process_batch, bind. destruct batch as [|b l].
  { split; [by intros ?? ?%elem_of_nil|]. split; [done|]. apply last_snoc. }
  set (w1 := World (Some d) [] n c (t ++ [EvLog INFO (LogBatch (length (b :: l)))])).
  change (log INFO (LogBatch (length (b :: l))) (World (Some d) [] n c t))
    with (inl (A:=unit) (B:=exn) tt, w1).
  cbv beta iota.
  destruct (for_each_process_request_healthy (b :: l) d n c
              (t ++ [EvLog INFO (LogBatch (length (b :: l)))]) Hnd)
    as (d' & n' & c' & t' & Hrun & Hout & Hsettled).
  fold w1 in Hrun. rewrite Hrun. cbn [sleep fst snd db db_faults net clock trace].
  assert (∀ f1 n1 c1 t1, queue_of (World (Some d') f1 n1 c1 t1) = requests_queue d')
    as Hqo by reflexivity.
  rewrite !Hqo.
  split; [|split; [exact Hout|apply last_snoc]].
  intros id request Hr. destruct (Hsettled id request Hr) as (u & Hu & Hq).
  exists u. split; [done|]. rewrite Hq.
  destruct (Hin (id, request) Hr) as [Hlook _]. cbn in Hlook. by rewrite Hlook.
Qed.

(** ** A healthy store and a healthy transport *)

Lemma approve_single_request_success chat user first_name title d n c t :
  answer n 0 = None → answer n 1 = None → answer n 2 = None →
  approve_single_request chat user first_name title (World (Some d) [] n c t)
  = (inl true,
     World (Some (upsert_user c user first_name None
                    (record_stat c chat user true None d)))
           [] (drop 3 n) c (t ++ success_events chat user first_name title)).
Proof.
  intros H0 H1 H2.
  unfold approve_single_request, update_stats, save_user, try_except, bind, connected,
    utcnow, store_op, telegram, log, emit, sleep, ret; cbn.
  destruct n as [|[e0|] [|[e1|] [|[e2|] n]]]; try discriminate; cbn;
    by rewrite <- !(assoc_L (++)).
Qed.

(** X3.  When an approval succeeds at once (approval, photo and
    confirmation all go through) and the store works, the worker returns
    [True], appends one statistics document marked approved, increments
    [total_approved] of the channel only if the channel already has a
    document, and upserts the subject as a user whose [username] is [None]:
    a username saved before is overwritten.  Other users and the queue are
    left alone. *)
Theorem successful_approval_bookkeeping (chat user : Z) (first_name title : string)
    (d : database) (n : list (option exn)) (c : Z) (t : list event) :
  answer n 0 = None → answer n 1 = None → answer n 2 = None →
  ∃ d' w',
    approve_single_request chat user first_name title (World (Some d) [] n c t)
    = (inl true, w')
    ∧ db w' = Some d'
    ∧ users_collection d' !! user = Some (UserDoc first_name None c)
    ∧ (∀ u, u ≠ user → users_collection d' !! u = users_collection d !! u)
    ∧ stats_collection d' = stats_collection d ++ [StatDoc c chat user true None]
    ∧ channels_collection d' = alter inc_total_approved chat (channels_collection d)
    ∧ requests_queue d' = requests_queue d.
Proof.
  intros H0 H1 H2.
  rewrite (approve_single_request_success _ _ _ _ _ _ _ _ H0 H1 H2).
  eexists _, _. split; [reflexivity|]. split; [reflexivity|]. cbn.
  split; [apply lookup_insert_eq|]. split; [|done].
  intros u Hu. by rewrite lookup_insert_ne.
Qed.

(** [successful_approval_bookkeeping] for a subject whose username was
    known and a channel that has no document. *)
Lemma successful_approval_bookkeeping_witness :
  let d := Database {[7 := UserDoc "Ann" (Some "ann_handle") 50]} ∅ [] ∅ in
  ∃ d' w',
    approve_single_request (-1001) 7 "Ann" "Group" (World (Some d) [] [] 200 [])
    = (inl true, w')
    ∧ db w' = Some d'
    ∧ users_collection d' !! 7 = Some (UserDoc "Ann" None 200)
    ∧ (∀ u, u ≠ 7 → users_collection d' !! u = users_collection d !! u)
    ∧ stats_collection d' = stats_collection d ++ [StatDoc 200 (-1001) 7 true None]
    ∧ channels_collection d' = alter inc_total_approved (-1001) (channels_collection d)
    ∧ requests_queue d' = requests_queue d.
Proof.
  intros d.
  apply (successful_approval_bookkeeping (-1001) 7 "Ann" "Group" d [] 200 []);
    reflexivity.
Defined.

Lemma process_request_success id request d c t :
  process_request (id, request) (World (Some d) [] [] c t)
  = (inl tt,
     World (Some (set_requests_queue
                    (alter (mark_processed c) id (requests_queue d))
                    (upsert_user c (user_id request) (user_first_name request) None
                       (record_stat c (chat_id request) (user_id request) true None d))))
           [] [] c
           (t ++ success_events (chat_id request) (user_id request)
                                (user_first_name request) (chat_title request))).
Proof.
  unfold process_request, try_except, bind. cbn [fst snd].
  by rewrite approve_single_request_success.
Qed.

(** The events of a batch in which every approval succeeds at once. *)
Lemma for_each_process_request_success batch d c t :
  NoDup batch.*1 →
  ∃ d',
    for_each batch process_request (World (Some d) [] [] c t)
    = (inl tt,
       World (Some d') [] [] c
             (t ++ (batch ≫= λ r, success_events (chat_id r.2) (user_id r.2)
                                     (user_first_name r.2) (chat_title r.2))))
    ∧ (∀ id, id ∉ batch.*1 → requests_queue d' !! id = requests_queue d !! id)
    ∧ (∀ id request, (id, request) ∈ batch →
         requests_queue d' !! id = mark_processed c <$> requests_queue d !! id).
Proof.
  revert d t. induction batch as [|[id0 r0] batch IH]; intros d t Hnd.
  { exists d. cbn. rewrite app_nil_r. split; [done|]. split; [done|].
    by intros ?? ?%elem_of_nil. }
  rewrite fmap_cons in Hnd. apply NoDup_cons in Hnd as [Hid0 Hnd].
  rewrite for_each_cons, process_request_success.
  set (d1 := set_requests_queue _ _).
  destruct (IH d1 (t ++ success_events (chat_id r0) (user_id r0)
                              (user_first_name r0) (chat_title r0)) Hnd)
    as (d' & -> & Hout & Hin).
  exists d'. split; [by rewrite <- (assoc_L (++))|].
  assert (requests_queue d1 = alter (mark_processed c) id0 (requests_queue d)) as Hq1
    by reflexivity.
  split.
  - intros id Hid. apply not_elem_of_cons in Hid as [Hne Hid].
    rewrite (Hout id Hid), Hq1. by rewrite lookup_alter_ne.
  - intros id request [Heq|Hr]%elem_of_cons.
    + injection Heq as -> ->.
      rewrite (Hout id0 Hid0), Hq1. by rewrite lookup_alter_eq.
    + rewrite (Hin id request Hr), Hq1. rewrite lookup_alter_ne; [done|].
      intros <-. apply Hid0. by apply (list_elem_of_fmap_2 fst) in Hr.
Qed.

Lemma approvals_app l1 l2 : approvals (l1 ++ l2) = approvals l1 ++ approvals l2.
Proof. apply omap_app. Qed.

Lemma approvals_success_events (batch : list (positive * request_doc)) :
  approvals (batch ≫= λ r, success_events (chat_id r.2) (user_id r.2)
                             (user_first_name r.2) (chat_title r.2))
  = (λ r, (chat_id r.2, user_id r.2, None)) <$> batch.
Proof.
  induction batch as [|r batch IH]; [done|].
  cbn [mbind list_bind]. rewrite approvals_app, IH. reflexivity.
Qed.

(** X4.  When the store works and every Telegram call succeeds, a turn of
    the loop approves the fetched requests one by one in the order of the
    batch (oldest first), each exactly once, and marks exactly those
    documents processed, stamped with the time of the turn; the other
    documents are left as they are. *)
Theorem healthy_turn_approves_batch_in_order (d : database) (c : Z) (t : list event) :
  let w := World (Some d) [] [] c t in
  let batch := find_unprocessed 10 (requests_queue d) in
  ∃ evs,
    trace (process_queue_iteration w).2 = t ++ evs
    ∧ approvals evs = (λ r, (chat_id r.2, user_id r.2, None)) <$> batch
    ∧ (∀ id request, (id, request) ∈ batch →
         queue_of (process_queue_iteration w).2 !! id = Some (mark_processed c request))
    ∧ (∀ id, id ∉ batch.*1 →
         queue_of (process_queue_iteration w).2 !! id = requests_queue d !! id).
Proof.
  intros w batch.
  pose proof (find_unprocessed_NoDup 10 (requests_queue d)) as Hnd.
  pose proof (find_unprocessed_elem 10 (requests_queue d)) as Hin.
  unfold process_queue_iteration, try_except, bind, fetch_batch, store_op, w.
  cbn [db db_faults net clock trace tail]. fold batch in Hnd, Hin |- *.
  unfold process_batch, bind. destruct batch as [|b l].
  { exists [EvSleep 1]. split; [done|]. split; [done|].
    split; [by intros ?? ?%elem_of_nil|done]. }
  set (w1 := World (Some d) [] [] c (t ++ [EvLog INFO (LogBatch (length (b :: l)))])).
  change (log INFO (LogBatch (length (b :: l))) (World (Some d) [] [] c t))
    with (inl (A:=unit) (B:=exn) tt, w1).
  cbv beta iota.
  destruct (for_each_process_request_success (b :: l) d c
              (t ++ [EvLog INFO (LogBatch (length (b :: l)))]) Hnd)
    as (d' & Hrun & Hout & Hdone).
  fold w1 in Hrun. rewrite Hrun. cbn [sleep fst snd db db_faults net clock trace].
  assert (∀ f1 n1 c1 t1, queue_of (World (Some d') f1 n1 c1 t1) = requests_queue d')
    as Hqo by reflexivity.
  eexists. split; [by rewrite <- !(assoc_L (++))|].
  rewrite !Hqo. split; [|split; [|exact Hout]].
  - rewrite !approvals_app, approvals_success_events. cbn [approvals omap app].
    by rewrite app_nil_r.
  - intros id request Hr. rewrite (Hdone id request Hr).
    destruct (Hin (id, request) Hr) as [Hlook _]. cbn in Hlook. by rewrite Hlook.
Qed.

(** ** Follow-up messages decide the worker's verdict *)

(** X5.  The promotional photo and the confirmation are not best-effort:
    when the approval itself went through and one of the two messages then
    fails with an error that is not a rate limit, the worker stops there,
    records the statistics with that error and [approved] false, does not
    save the user, and returns [False], although the subject has been
    approved. *)
Theorem notification_failure_counts_as_failure (chat user : Z) (first_name title : string)
    (d : database) (n : list (option exn)) (c : Z) (t : list event) (e : exn) :
  match e with FloodWait _ => False | _ => True end →
  answer n 0 = None →
  answer n 1 = Some e ∨ (answer n 1 = None ∧ answer n 2 = Some e) →
  ∃ w' evs,
    approve_single_request chat user first_name title (World (Some d) [] n c t)
    = (inl false, w')
    ∧ db w' = Some (record_stat c chat user false (Some (str e)) d)
    ∧ trace w' = t ++ evs
    ∧ approvals evs = [(chat, user, None)]
    ∧ (effects evs = [EvCall (Approve chat user) None; EvCall (SendPhoto user) (Some e)]
       ∨ effects evs = [EvCall (Approve chat user) None; EvCall (SendPhoto user) None;
                        EvCall (SendMessage user first_name title) (Some e)]).
Proof.
  intros He H0 H12.
  unfold approve_single_request, update_stats, save_user, try_except, bind, connected,
    utcnow, store_op, telegram, log, emit, sleep, ret; cbn.
  destruct n as [|[e0|] [|[e1|] n]]; try discriminate; cbn in H12;
    try (destruct H12 as [H1|[H1 H2]]; discriminate).
  - destruct H12 as [H1|[H1 H2]]; [|discriminate]. injection H1 as ->.
    destruct e; try done; cbn;
      (eexists _, _; split; [reflexivity|]; split; [reflexivity|];
       split; [by rewrite <- !(assoc_L (++))|]; split; [reflexivity|by left]).
  - destruct H12 as [H1|[_ H2]]; [discriminate|].
    destruct n as [|[e2|] n]; try discriminate. injection H2 as ->.
    destruct e; try done; cbn;
      (eexists _, _; split; [reflexivity|]; split; [reflexivity|];
       split; [by rewrite <- !(assoc_L (++))|]; split; [reflexivity|by right]).
Qed.

(** [notification_failure_counts_as_failure] for a subject that cannot be
    messaged. *)
Lemma notification_failure_counts_as_failure_witness :
  let d := Database ∅ ∅ [] ∅ in
  let n := [None; Some PeerIdInvalid] in
  ∃ w' evs,
    approve_single_request (-1001) 7 "Ann" "Group" (World (Some d) [] n 200 [])
    = (inl false, w')
    ∧ db w' = Some (record_stat 200 (-1001) 7 false (Some (str PeerIdInvalid)) d)
    ∧ trace w' = [] ++ evs
    ∧ approvals evs = [(-1001, 7, None)]
    ∧ (effects evs = [EvCall (Approve (-1001) 7) None;
                      EvCall (SendPhoto 7) (Some PeerIdInvalid)]
       ∨ effects evs = [EvCall (Approve (-1001) 7) None; EvCall (SendPhoto 7) None;
                        EvCall (SendMessage 7 "Ann" "Group") (Some PeerIdInvalid)]).
Proof.
  intros d n.
  apply (notification_failure_counts_as_failure (-1001) 7 "Ann" "Group" d n 200 []
           PeerIdInvalid).
  - exact I.
  - reflexivity.
  - left. reflexivity.
Defined.

(** X6.  When the approval went through and the photo or the confirmation
    is rate-limited, the handler of the rate limit sleeps the signalled
    time and then calls the approval again for the same subject, so the
    invocation makes two approval calls; the message that was rate-limited
    is not sent again. *)
Theorem rate_limited_message_repeats_approval (chat user : Z) (first_name title : string)
    (w : world) (v : Z) :
  answer (net w) 0 = None →
  answer (net w) 1 = Some (FloodWait v)
  ∨ (answer (net w) 1 = None ∧ answer (net w) 2 = Some (FloodWait v)) →
  ∃ evs a,
    trace (approve_single_request chat user first_name title w).2 = trace w ++ evs
    ∧ approvals evs = [(chat, user, None); (chat, user, a)]
    ∧ waits evs = [v]
    ∧ (approve_single_request chat user first_name title w).1
      = match a with None => inl true | Some e => inr e end
    ∧ (notifications evs = [SendPhoto user]
       ∨ notifications evs = [SendPhoto user; SendMessage user first_name title]).
Proof.
  intros H0 H12.
  destruct (approve_single_request_view chat user first_name title w)
    as (w' & evs & -> & _ & Ht & He & _).
  assert (notifications (effects evs) = notifications evs) as Hn.
  { clear. induction evs as [|ev evs IH]; [done|].
    destruct ev as [[] ?| |]; cbn; first [exact IH | f_equal; exact IH]. }
  exists evs. cbn [fst snd].
  rewrite <- (approvals_effects evs), <- (waits_effects evs), <- Hn, He.
  unfold worker_view. rewrite H0.
  destruct H12 as [H1|[H1 H2]].
  - rewrite H1. cbn. eexists. repeat split; try done. by left.
  - rewrite H1, H2. cbn. eexists. repeat split; try done. by right.
Qed.

(** [rate_limited_message_repeats_approval] when the photo is
    rate-limited for five seconds. *)
Lemma rate_limited_message_repeats_approval_witness :
  let w := World (Some (Database ∅ ∅ [] ∅)) [] [None; Some (FloodWait 5); None] 200 [] in
  ∃ evs a,
    trace (approve_single_request (-1001) 7 "Ann" "Group" w).2 = trace w ++ evs
    ∧ approvals evs = [(-1001, 7, None); (-1001, 7, a)]
    ∧ waits evs = [5]
    ∧ (approve_single_request (-1001) 7 "Ann" "Group" w).1
      = match a with None => inl true | Some e => inr e end
    ∧ (notifications evs = [SendPhoto 7]
       ∨ notifications evs = [SendPhoto 7; SendMessage 7 "Ann" "Group"]).
Proof.
  intros w.
  apply (rate_limited_message_repeats_approval (-1001) 7 "Ann" "Group" w 5).
  - reflexivity.
  - left. reflexivity.
Defined.

(** ** Broadcast without a recipient list *)

(** X7.  When the list of users cannot be fetched, because the database is
    not connected or because the query raises, the broadcast contacts
    nobody and leaves the store as it is.  It makes its three status calls
    only: the reply, the text that the broadcast starts for 0 users, and the
    final report with a total of 0 users, 0 successful and 0 failed.  It
    raises only if one of these calls raises, with that exception, and then
    makes none of the later ones. *)
Theorem broadcast_without_recipients (depth : nat) (w : world) :
  db w = None ∨ head (db_faults w) = Some true →
  ∃ evs,
    trace (handle_broadcast_message depth w).2 = trace w ++ evs
    ∧ db (handle_broadcast_message depth w).2 = db w
    ∧ match answer (net w) 0, answer (net w) 1, answer (net w) 2 with
      | Some e, _, _ =>
          (handle_broadcast_message depth w).1 = inr e
          ∧ effects evs = [EvCall (Reply Preparing) (Some e)]
      | None, Some e, _ =>
          (handle_broadcast_message depth w).1 = inr e
          ∧ effects evs = [EvCall (Reply Preparing) None;
                           EvCall (EditText (Starting 0)) (Some e)]
      | None, None, a =>
          (handle_broadcast_message depth w).1
          = match a with None => inl tt | Some e => inr e end
          ∧ effects evs = [EvCall (Reply Preparing) None;
                           EvCall (EditText (Starting 0)) None;
                           EvCall (EditText (Completed 0 0 0)) a]
      end.
Proof.
  intros Hdb. destruct w as [d f n c t]. cbn in *.
  unfold handle_broadcast_message, fetch_all_users, broadcast_chunks, try_except, bind,
    connected, store_op, telegram, log, emit, ret.
  destruct d as [d|].
  - destruct Hdb as [?|Hf]; [discriminate|]. destruct f as [|[] f]; try discriminate.
    destruct n as [|[e0|] [|[e1|] [|[e2|] n]]]; cbn;
      (eexists; split; [by rewrite <- ?(assoc_L (++))|]; split; reflexivity || by split).
  - destruct n as [|[e0|] [|[e1|] [|[e2|] n]]]; cbn;
      (eexists; split; [by rewrite <- ?(assoc_L (++))|]; split; reflexivity || by split).
Qed.

(** [broadcast_without_recipients] when the query for the users raises and
    the final report cannot be sent. *)
Lemma broadcast_without_recipients_witness :
  let w := World (Some (Database {[7 := UserDoc "Ann" None 50]} ∅ [] ∅)) [true]
                 [None; None; Some (OtherError "MESSAGE_ID_INVALID")] 200 [] in
  ∃ evs,
    trace (handle_broadcast_message 990 w).2 = trace w ++ evs
    ∧ db (handle_broadcast_message 990 w).2 = db w
    ∧ match answer (net w) 0, answer (net w) 1, answer (net w) 2 with
      | Some e, _, _ =>
          (handle_broadcast_message 990 w).1 = inr e
          ∧ effects evs = [EvCall (Reply Preparing) (Some e)]
      | None, Some e, _ =>
          (handle_broadcast_message 990 w).1 = inr e
          ∧ effects evs = [EvCall (Reply Preparing) None;
                           EvCall (EditText (Starting 0)) (Some e)]
      | None, None, a =>
          (handle_broadcast_message 990 w).1
          = match a with None => inl tt | Some e => inr e end
          ∧ effects evs = [EvCall (Reply Preparing) None;
                           EvCall (EditText (Starting 0)) None;
                           EvCall (EditText (Completed 0 0 0)) a]
      end.
Proof.
  intros w. apply (broadcast_without_recipients 990 w). by right.
Defined.

(** ** Saving and fetching users *)

(** X8.  A user saved while the store works is what the next fetch of the
    user list returns for that id: [save_user] returns [True], and
    [fetch_all_users] then lists each user id once, the saved id with the
    name and username just given, every other id with the name and username
    of the document it had (the fetch does not return the time of the last
    activity).  Saving a known user adds no second document. *)
Theorem saved_user_is_fetched_once (user : Z) (first_name : string)
    (uname : option string) (d : database) (n : list (option exn)) (c : Z)
    (t : list event) :
  ∃ w1 w2 users,
    save_user user first_name uname (World (Some d) [] n c t) = (inl true, w1)
    ∧ fetch_all_users w1 = (inl users, w2)
    ∧ NoDup (row_user_id <$> users)
    ∧ (∀ row, row ∈ users ↔
              row = UserRow user first_name uname
              ∨ (row_user_id row ≠ user
                 ∧ ∃ doc, users_collection d !! row_user_id row = Some doc
                          ∧ row_name row = name doc
                          ∧ row_username row = username doc))
    ∧ length users
      = (if decide (is_Some (users_collection d !! user))
         then size (users_collection d) else S (size (users_collection d))).
Proof.
  unfold save_user, fetch_all_users, try_except, bind, connected, utcnow, store_op,
    log, emit, ret; cbn.
  eexists _, _, _. split; [reflexivity|]. split; [reflexivity|].
  cbn [users_collection set_users].
  split; [rewrite <- list_fmap_compose; apply NoDup_fst_map_to_list|]. split.
  - intros row. rewrite list_elem_of_fmap. split.
    + intros [[u doc] [-> Hin]]. apply elem_of_map_to_list in Hin.
      rewrite lookup_insert in Hin. case_decide as Hu.
      * injection Hin as <-. subst u. by left.
      * right. split; [by intros <-|]. by exists doc.
    + intros [->|[Hne (doc & Hdoc & Hn & Hu)]].
      * exists (user, UserDoc first_name uname c). split; [done|].
        apply elem_of_map_to_list. rewrite lookup_insert. by case_decide.
      * exists (row_user_id row, doc). split; [destruct row; cbn in *; by subst|].
        apply elem_of_map_to_list. rewrite lookup_insert. by case_decide.
  - rewrite length_fmap, length_map_to_list. case_decide as Hknown.
    + by apply map_size_insert_Some.
    + apply map_size_insert_None. by apply eq_None_not_Some.
Qed.

(** ** What the handlers keep *)

Section preservation.
Context (R : world → world → Prop) `{!Reflexive R, !Transitive R}.

Lemma preserves_ret {A} (a : A) : preserves R (ret a).
Proof. intros w. reflexivity. Qed.

Lemma preserves_raise {A} (e : exn) : preserves R (raise (A:=A) e).
Proof. intros w. reflexivity. Qed.

Lemma preserves_bind {A B} (m : M A) (k : A → M B) :
  preserves R m → (∀ a, preserves R (k a)) → preserves R (bind m k).
Proof.
  intros Hm Hk w. unfold bind. specialize (Hm w).
  destruct (m w) as [[a|e] w1]; [|done].
  etrans; [exact Hm|apply Hk].
Qed.

Lemma preserves_try {A} (body : M A) (handler : exn → M A) :
  preserves R body → (∀ e, preserves R (handler e)) → preserves R (try_except body handler).
Proof.
  intros Hm Hh w. unfold try_except. specialize (Hm w).
  destruct (body w) as [[a|e] w1]; [done|].
  etrans; [exact Hm|apply Hh].
Qed.

Lemma preserves_for_each {A} (l : list A) (body : A → M unit) :
  (∀ x, preserves R (body x)) → preserves R (for_each l body).
Proof.
  intros Hbody. induction l as [|x l IH]; [apply preserves_ret|].
  apply preserves_bind; auto.
Qed.

Lemma preserves_for_fold {A S} (l : list A) (body : S → A → M S) acc :
  (∀ acc x, preserves R (body acc x)) → preserves R (for_fold l body acc).
Proof.
  intros Hbody. revert acc. induction l as [|x l IH]; intros acc; [apply preserves_ret|].
  apply preserves_bind; auto.
Qed.

(** The primitives that do not touch the store are handled once for any
    relation that only looks at the store. *)
Hypothesis R_db : ∀ w w', db w' = db w → R w w'.

Lemma preserves_log l m : preserves R (log l m).
Proof. intros w. by apply R_db. Qed.

Lemma preserves_sleep s : preserves R (sleep s).
Proof. intros w. by apply R_db. Qed.

Lemma preserves_utcnow : preserves R utcnow.
Proof. intros w. by apply R_db. Qed.

Lemma preserves_connected : preserves R connected.
Proof. intros w. by apply R_db. Qed.

Lemma preserves_telegram c : preserves R (telegram c).
Proof.
  intros w. apply R_db. unfold telegram.
  by destruct (match net w with [] => None | a :: _ => a end).
Qed.

Lemma preserves_copy_message_to_user depth user :
  preserves R (copy_message_to_user depth user).
Proof.
  induction depth as [|depth IH]; cbn [copy_message_to_user];
    (apply preserves_try;
     [apply preserves_bind; [apply preserves_telegram|intros; apply preserves_ret]|]);
    intros e; destruct e;
    try (apply preserves_bind; [apply preserves_log|intros; apply preserves_ret]);
    (apply preserves_bind; [apply preserves_sleep|intros _]);
    [apply preserves_raise|apply IH].
Qed.

Lemma preserves_broadcast_to_user depth total counters user :
  preserves R (broadcast_to_user depth total counters user).
Proof.
  unfold broadcast_to_user.
  apply preserves_bind; [apply preserves_copy_message_to_user|intros ok].
  apply preserves_bind; [|intros; apply preserves_ret].
  case_bool_decide; [|apply preserves_ret].
  apply preserves_try; [apply preserves_telegram|intros; apply preserves_ret].
Qed.

Lemma preserves_broadcast_chunks depth users counters :
  preserves R (broadcast_chunks depth users counters).
Proof.
  unfold broadcast_chunks. apply preserves_for_fold. intros acc i.
  apply preserves_for_fold. intros. apply preserves_broadcast_to_user.
Qed.
End preservation.

#[local] Instance same_db_refl : Reflexive same_db.
Proof. by intros w. Qed.

#[local] Instance same_db_trans : Transitive same_db.
Proof. unfold same_db. intros w1 w2 w3. congruence. Qed.

#[local] Instance db_evolves_refl : Reflexive db_evolves.
Proof. intros [d|]; cbn; [|done]. by repeat split. Qed.

#[local] Instance db_evolves_trans : Transitive db_evolves.
Proof.
  intros [d1|] [d2|] [d3|]; cbn; try done.
  intros (Hs1 & Hc1 & Hu1 & Hq1) (Hs2 & Hc2 & Hu2 & Hq2).
  split; [by etrans|]. split; [congruence|]. split; by etrans.
Qed.

#[local] Instance evolves_refl : Reflexive evolves.
Proof. intros w. unfold evolves. reflexivity. Qed.

#[local] Instance evolves_trans : Transitive evolves.
Proof. intros w1 w2 w3. unfold evolves. apply db_evolves_trans. Qed.

Lemma evolves_db w w' : db w' = db w → evolves w w'.
Proof. unfold evolves. intros ->. reflexivity. Qed.

Lemma same_db_db w w' : db w' = db w → same_db w w'.
Proof. done. Qed.

(** A query reads the store and leaves it as it is, also when it fails. *)
Lemma same_db_store_read {A} (g : database → A) :
  preserves same_db (store_op (λ d, (g d, d))).
Proof.
  intros [[d|] f n c t]; [|done]. unfold store_op, same_db. cbn.
  by destruct f as [|[] f].
Qed.

(** Takes a computation apart along its binds, handlers and branches;
    [Hdb] says that the relation holds between worlds with the same store. *)
Ltac keeps Hdb :=
  repeat match goal with
         | |- Reflexive _ => apply _
         | |- Transitive _ => apply _
         | |- ∀ _, _ => intros ?
         | |- preserves _ (bind _ _) => apply preserves_bind
         | |- preserves _ (try_except _ _) => apply preserves_try
         | |- preserves _ (ret _) => apply preserves_ret
         | |- preserves _ (raise _) => apply preserves_raise
         | |- preserves _ (log _ _) => apply preserves_log, Hdb
         | |- preserves _ (sleep _) => apply preserves_sleep, Hdb
         | |- preserves _ utcnow => apply preserves_utcnow, Hdb
         | |- preserves _ connected => apply preserves_connected, Hdb
         | |- preserves _ (telegram _) => apply preserves_telegram, Hdb
         | |- preserves _ (if ?b then _ else _) => destruct b
         | |- preserves _ (match ?e with _ => _ end) => destruct e
         end.

Lemma same_db_fetch_all_users : preserves same_db fetch_all_users.
Proof. unfold fetch_all_users. keeps same_db_db. apply same_db_store_read. Qed.

Lemma same_db_handle_broadcast_message depth :
  preserves same_db (handle_broadcast_message depth).
Proof.
  unfold handle_broadcast_message. keeps same_db_db.
  - apply same_db_fetch_all_users.
  - apply preserves_broadcast_chunks; [apply _|apply _|exact same_db_db].
Qed.

(** An operation that makes the store grow, if it does anything. *)
Lemma evolves_store_op {A} (f : database → A * database) :
  (∀ d, db_evolves (Some d) (Some (f d).2)) → preserves evolves (store_op f).
Proof.
  intros Hf [[d|] fs n c t]; [|done]. unfold store_op, evolves.
  cbn [db db_faults net clock trace].
  specialize (Hf d). destruct (f d) as [a d'].
  destruct fs as [|[] fs]; cbn [db fst snd] in *;
    first [exact Hf|apply db_evolves_refl].
Qed.

Lemma evolves_save_user user first_name uname :
  preserves evolves (save_user user first_name uname).
Proof.
  unfold save_user. keeps evolves_db. apply evolves_store_op. intros d. cbn.
  split; [done|]. split; [done|]. split; [|done].
  rewrite dom_insert_L. set_solver.
Qed.

Lemma evolves_update_stats chat user approved err :
  preserves evolves (update_stats chat user approved err).
Proof.
  unfold update_stats. keeps evolves_db.
  - apply evolves_store_op. intros d. cbn.
    split; [by apply prefix_app_r|]. by repeat split.
  - apply evolves_store_op. intros d. cbn.
    split; [done|]. split; [apply dom_alter_L|]. by split.
Qed.

Lemma evolves_approve_single_request chat user first_name title :
  preserves evolves (approve_single_request chat user first_name title).
Proof.
  unfold approve_single_request.
  keeps evolves_db; first [apply evolves_update_stats|apply evolves_save_user].
Qed.

Lemma evolves_update_request id u : preserves evolves (update_request id u).
Proof.
  apply evolves_store_op. intros d. cbn.
  split; [done|]. split; [done|]. split; [done|]. by rewrite dom_alter_L.
Qed.

Lemma evolves_process_queue_iteration : preserves evolves process_queue_iteration.
Proof.
  unfold process_queue_iteration, process_batch, fetch_batch. keeps evolves_db.
  - apply evolves_store_op. intros d. reflexivity.
  - apply preserves_for_each; [apply _|apply _|]. intros r. unfold process_request.
    keeps evolves_db;
      first [apply evolves_approve_single_request|apply evolves_update_request].
Qed.

Lemma evolves_add_request_to_queue jr : preserves evolves (add_request_to_queue jr).
Proof.
  unfold add_request_to_queue, insert_request. keeps evolves_db.
  - apply evolves_store_op. intros d. cbn.
    split; [done|]. split; [done|]. split; [done|].
    rewrite dom_insert_L. set_solver.
  - apply evolves_approve_single_request.
Qed.

(** X9.  No handler takes anything out of the store.  A join request and a
    turn of the processor leave it connected or unconnected as it was,
    only extend the statistics at the end, remove no user and no request
    document, and never create or remove a channel document (so the
    approval counter of a channel that has no document is never kept).  A
    broadcast leaves the store exactly as it is. *)
Theorem handlers_only_add_to_the_store (jr : join_request) (depth : nat) (w : world) :
  db_evolves (db w) (db (handle_join_request jr w).2)
  ∧ db_evolves (db w) (db (process_queue_iteration w).2)
  ∧ db (handle_broadcast_message depth w).2 = db w.
Proof.
  split; [apply (evolves_add_request_to_queue jr w)|].
  split; [apply (evolves_process_queue_iteration w)|].
  apply (same_db_handle_broadcast_message depth w).
Qed.

(** ** The processor's loop keeps running *)

#[local] Instance quiet_refl : Reflexive quiet.
Proof. intros w. exists []. by rewrite app_nil_r. Qed.

#[local] Instance quiet_trans : Transitive quiet.
Proof.
  intros w1 w2 w3 (evs1 & Ht1 & Hq1) (evs2 & Ht2 & Hq2). exists (evs1 ++ evs2).
  split; [by rewrite Ht2, Ht1, (assoc_L (++))|].
  unfold queue_errors in *. by rewrite omap_app, Hq1, Hq2.
Qed.

Lemma quiet_log l m : queue_errors [EvLog l m] = [] → preserves quiet (log l m).
Proof. intros Hm w. by exists [EvLog l m]. Qed.

Lemma quiet_sleep s : preserves quiet (sleep s).
Proof. intros w. by exists [EvSleep s]. Qed.

Lemma quiet_telegram c : preserves quiet (telegram c).
Proof. intros w. destruct (telegram_spec c w) as [a ->]. by exists [EvCall c a]. Qed.

Lemma quiet_utcnow : preserves quiet utcnow.
Proof. intros w. reflexivity. Qed.

Lemma quiet_connected : preserves quiet connected.
Proof. intros w. reflexivity. Qed.

Lemma store_op_trace {A} (f : database → A * database) w :
  trace (store_op f w).2 = trace w.
Proof.
  destruct w as [[d|] fs n c t]; [|done]. unfold store_op. cbn [db db_faults net clock trace].
  destruct (f d) as [a d']. by destruct fs as [|[] fs].
Qed.

Lemma quiet_store_op {A} (f : database → A * database) : preserves quiet (store_op f).
Proof. intros w. exists []. by rewrite store_op_trace, app_nil_r. Qed.

(** Takes a computation apart along its binds, handlers and branches, for
    the log lines other than the queue error. *)
Ltac stays_quiet :=
  repeat match goal with
         | |- Reflexive _ => apply _
         | |- Transitive _ => apply _
         | |- ∀ _, _ => intros ?
         | |- preserves _ (bind _ _) => apply preserves_bind
         | |- preserves _ (try_except _ _) => apply preserves_try
         | |- preserves _ (ret _) => apply preserves_ret
         | |- preserves _ (raise _) => apply preserves_raise
         | |- preserves _ (log _ _) => apply quiet_log; reflexivity
         | |- preserves _ (sleep _) => apply quiet_sleep
         | |- preserves _ utcnow => apply quiet_utcnow
         | |- preserves _ connected => apply quiet_connected
         | |- preserves _ (telegram _) => apply quiet_telegram
         | |- preserves _ (store_op _) => apply quiet_store_op
         | |- preserves _ (if ?b then _ else _) => destruct b
         | |- preserves _ (match ?e with _ => _ end) => destruct e
         end.

Lemma quiet_process_request r : preserves quiet (process_request r).
Proof.
  unfold process_request, approve_single_request, update_stats, save_user, update_request.
  stays_quiet.
Qed.

(** Only a store operation makes the body of the loop raise: the worker's
    exceptions are caught, and the handler that catches them makes no call
    but the update of the document. *)
Lemma store_op_raises {A} (f : database → A * database) w e :
  (store_op f w).1 = inr e → store_error e.
Proof.
  destruct w as [[d|] fs n c t]; unfold store_op; cbn [db db_faults net clock trace].
  - destruct (f d) as [a d']. destruct fs as [|[] fs]; cbn; intros [=]. by left.
  - intros [= <-]. by right.
Qed.

Lemma process_request_raises r w e :
  (process_request r w).1 = inr e → store_error e.
Proof.
  unfold process_request, try_except.
  destruct (bind _ _ w) as [[[]|e'] w1]; [discriminate|].
  case_bool_decide; unfold bind, update_request.
  - destruct (store_op _ w1) as [[[]|e''] w2] eqn:Hop; cbn; [discriminate|].
    intros [= <-]. eapply store_op_raises. by erewrite Hop.
  - apply store_op_raises.
Qed.

Lemma for_each_process_request_raises batch w e :
  (for_each batch process_request w).1 = inr e → store_error e.
Proof.
  revert w. induction batch as [|r batch IH]; intros w; [discriminate|].
  rewrite for_each_cons.
  destruct (process_request r w) as [[[]|e'] w1] eqn:Hr; [apply IH|].
  intros [= <-]. apply (process_request_raises r w). by rewrite Hr.
Qed.

(** X1.  A turn of the processor's loop never raises, whatever the store
    and Telegram do, and the last thing it does is sleep.  When the fetch
    raises, the turn logs the queue error and sleeps five seconds, and does
    nothing else.  When the fetch returns no request, the turn sleeps one
    second and does nothing else.  After a batch that is not empty, the
    turn has first logged the size of the batch, and then either it ends
    with the sleep of one second and has logged no queue error, or an
    exception left the batch, which only the error of a store operation
    does (the update inside an [except] clause raised): the turn then logs
    this queue error, once, and ends with the sleep of five seconds. *)
Theorem process_queue_iteration_ends_asleep (w : world) :
  ∃ evs,
    (process_queue_iteration w).1 = inl tt
    ∧ trace (process_queue_iteration w).2 = trace w ++ evs
    ∧ match (fetch_batch 10 w).1 with
      | inr e => store_error e ∧ evs = [EvLog ERROR (LogQueueError e); EvSleep 5]
      | inl [] => evs = [EvSleep 1]
      | inl batch =>
          head evs = Some (EvLog INFO (LogBatch (length batch)))
          ∧ ((queue_errors evs = [] ∧ last evs = Some (EvSleep 1))
             ∨ (∃ e evs', store_error e ∧ queue_errors evs' = []
                          ∧ evs = evs' ++ [EvLog ERROR (LogQueueError e); EvSleep 5]))
      end.
Proof.
  unfold process_queue_iteration, try_except, bind.
  pose proof (store_op_trace (λ d, (find_unprocessed 10 (requests_queue d), d)) w) as Ht1.
  pose proof (store_op_raises (λ d, (find_unprocessed 10 (requests_queue d), d)) w) as He1.
  fold (fetch_batch 10) in Ht1, He1.
  destruct (fetch_batch 10 w) as [[batch|e] w1]; cbn [fst snd] in *.
  - destruct batch as [|b batch].
    { exists [EvSleep 1]. cbn. by rewrite Ht1. }
    unfold process_batch, bind.
    set (w2 := (log INFO (LogBatch (length (b :: batch))) w1).2).
    change (log INFO (LogBatch (length (b :: batch))) w1)
      with (inl (A:=unit) (B:=exn) tt, w2).
    assert (trace w2 = trace w ++ [EvLog INFO (LogBatch (length (b :: batch)))]) as Ht2
      by (cbn; by rewrite Ht1).
    destruct (preserves_for_each quiet (b :: batch) process_request
                quiet_process_request w2) as (evs0 & Ht3 & Hq3).
    pose proof (for_each_process_request_raises (b :: batch) w2) as He3.
    destruct (for_each (b :: batch) process_request w2) as [[[]|e] w3]; cbn [fst snd] in *.
    + exists (EvLog INFO (LogBatch (length (b :: batch))) :: evs0 ++ [EvSleep 1]).
      split; [done|]. split; [cbn; by rewrite Ht3, Ht2, <- !(assoc_L (++))|].
      split; [done|]. left. split.
      * change (queue_errors ([EvLog INFO (LogBatch (length (b :: batch)))]
                              ++ evs0 ++ [EvSleep 1]) = []).
        unfold queue_errors in *. by rewrite !omap_app, Hq3.
      * change (last ((EvLog INFO (LogBatch (length (b :: batch))) :: evs0) ++ [EvSleep 1])
                = Some (EvSleep 1)).
        apply last_snoc.
    + exists (EvLog INFO (LogBatch (length (b :: batch))) :: evs0
              ++ [EvLog ERROR (LogQueueError e); EvSleep 5]).
      split; [done|]. split; [cbn; by rewrite Ht3, Ht2, <- !(assoc_L (++))|].
      split; [done|]. right.
      exists e, (EvLog INFO (LogBatch (length (b :: batch))) :: evs0).
      split; [by apply He3|]. split; [|done].
      change (queue_errors ([EvLog INFO (LogBatch (length (b :: batch)))] ++ evs0) = []).
      unfold queue_errors in *. by rewrite omap_app, Hq3.
  - exists [EvLog ERROR (LogQueueError e); EvSleep 5].
    split; [done|]. split; [cbn; by rewrite Ht1, <- (assoc_L (++))|].
    split; [by apply He1|done].
Qed.

(** ** Enqueueing *)

(** When no more than [limit] requests are pending, a fetch returns all of
    them. *)
Lemma find_unprocessed_all limit q r :
  (length (filter unprocessed (map_to_list q)) ≤ limit)%nat →
  q !! r.1 = Some r.2 → processed r.2 = false →
  r ∈ find_unprocessed limit q.
Proof.
  intros Hlen Hq Hp. unfold find_unprocessed.
  rewrite take_ge by (by rewrite merge_sort_Permutation).
  rewrite merge_sort_Permutation. apply list_elem_of_filter.
  split; [done|]. destruct r. by apply elem_of_map_to_list.
Qed.

(** X10.  A join request that arrives while the store works is stored and
    nothing else happens: the enqueue path returns normally without a
    Telegram call, and the queue gains exactly one document, under an id
    that was not in use, Pending, with a retry counter of 0 and the time of
    arrival as its timestamp; the other documents are untouched.  If fewer
    than ten requests were pending, the next fetch of the processor
    returns the new request. *)
Theorem enqueue_adds_one_pending_request (jr : join_request) (d : database)
    (fs : list bool) (n : list (option exn)) (c : Z) (t : list event) :
  head fs ≠ Some true →
  ∃ id w',
    handle_join_request jr (World (Some d) fs n c t) = (inl tt, w')
    ∧ requests_queue d !! id = None
    ∧ queue_of w' = <[id := new_request c jr]> (requests_queue d)
    ∧ status_of (new_request c jr) = Pending
    ∧ net w' = n
    ∧ trace w' = t ++ [EvLog INFO (LogAddedToQueue (from_user_first_name jr)
                                     (from_user_id jr) (jr_chat_title jr))]
    ∧ ((length (filter unprocessed (map_to_list (requests_queue d))) < 10)%nat →
       (id, new_request c jr) ∈ find_unprocessed 10 (queue_of w')).
Proof.
  intros Hfs.
  assert (requests_queue d !! fresh (dom (requests_queue d)) = None) as Hfresh.
  { apply not_elem_of_dom. apply is_fresh. }
  exists (fresh (dom (requests_queue d))).
  unfold handle_join_request, add_request_to_queue, try_except, bind, connected, utcnow,
    insert_request, store_op, log, emit, ret.
  cbn [db]. rewrite bool_decide_eq_true_2 by eauto.
  cbn [db db_faults net clock trace fst snd].
  assert (∀ fs',
    let w' := World (Some (set_requests_queue
                  (<[fresh (dom (requests_queue d)) := new_request c jr]> (requests_queue d))
                  d)) fs' n c
                (t ++ [EvLog INFO (LogAddedToQueue (from_user_first_name jr)
                                     (from_user_id jr) (jr_chat_title jr))]) in
    requests_queue d !! fresh (dom (requests_queue d)) = None
    ∧ queue_of w' = <[fresh (dom (requests_queue d)) := new_request c jr]> (requests_queue d)
    ∧ status_of (new_request c jr) = Pending
    ∧ net w' = n
    ∧ trace w' = t ++ [EvLog INFO (LogAddedToQueue (from_user_first_name jr)
                                     (from_user_id jr) (jr_chat_title jr))]
    ∧ ((length (filter unprocessed (map_to_list (requests_queue d))) < 10)%nat →
       (fresh (dom (requests_queue d)), new_request c jr)
       ∈ find_unprocessed 10 (queue_of w'))) as Hok.
  { intros fs' w'. split; [done|]. split; [done|]. split; [done|]. split; [done|].
    split; [done|].
    intros Hlen. apply find_unprocessed_all; [|by apply lookup_insert_eq|done].
    change (queue_of w')
      with (<[fresh (dom (requests_queue d)) := new_request c jr]> (requests_queue d)).
    rewrite map_to_list_insert by done. rewrite filter_cons_True by done.
    cbn [length]. lia. }
  destruct fs as [|[] fs]; [|done|]; eexists; (split; [reflexivity|]); apply Hok.
Qed.

(** [enqueue_adds_one_pending_request] on an empty queue. *)
Lemma enqueue_adds_one_pending_request_witness :
  let jr := JoinRequest 7 "Ann" (-1001) "Group" in
  let d := Database ∅ ∅ [] ∅ in
  ∃ id w',
    handle_join_request jr (World (Some d) [] [] 200 []) = (inl tt, w')
    ∧ requests_queue d !! id = None
    ∧ queue_of w' = <[id := new_request 200 jr]> (requests_queue d)
    ∧ status_of (new_request 200 jr) = Pending
    ∧ net w' = []
    ∧ trace w' = [] ++ [EvLog INFO (LogAddedToQueue (from_user_first_name jr)
                                      (from_user_id jr) (jr_chat_title jr))]
    ∧ ((length (filter unprocessed (map_to_list (requests_queue d))) < 10)%nat →
       (id, new_request 200 jr) ∈ find_unprocessed 10 (queue_of w')).
Proof.
  intros jr d. apply (enqueue_adds_one_pending_request jr d [] [] 200 []). discriminate.
Defined.

(** ** Draining the queue *)

(** A turn in which the store and Telegram work, with the world it ends
    in. *)
Lemma healthy_turn d c t :
  ∃ d' evs,
    process_queue_iteration (World (Some d) [] [] c t)
    = (inl tt, World (Some d') [] [] (c + 1) (t ++ evs))
    ∧ approvals evs = approval_of <$> find_unprocessed 10 (requests_queue d)
    ∧ (∀ id request, (id, request) ∈ find_unprocessed 10 (requests_queue d) →
         requests_queue d' !! id = Some (mark_processed c request))
    ∧ (∀ id, id ∉ (find_unprocessed 10 (requests_queue d)).*1 →
         requests_queue d' !! id = requests_queue d !! id).
Proof.
  pose proof (find_unprocessed_NoDup 10 (requests_queue d)) as Hnd.
  pose proof (find_unprocessed_elem 10 (requests_queue d)) as Hin.
  unfold process_queue_iteration, try_except, bind, fetch_batch, store_op.
  cbn [db db_faults net clock trace tail].
  unfold process_batch, bind.
  destruct (find_unprocessed 10 (requests_queue d)) as [|b l].
  { exists d, [EvSleep 1]. split; [done|]. split; [done|].
    split; [by intros ?? ?%elem_of_nil|done]. }
  set (w1 := World (Some d) [] [] c (t ++ [EvLog INFO (LogBatch (length (b :: l)))])).
  change (log INFO (LogBatch (length (b :: l))) (World (Some d) [] [] c t))
    with (inl (A:=unit) (B:=exn) tt, w1).
  cbv beta iota.
  destruct (for_each_process_request_success (b :: l) d c
              (t ++ [EvLog INFO (LogBatch (length (b :: l)))]) Hnd)
    as (d' & Hrun & Hout & Hdone).
  fold w1 in Hrun. rewrite Hrun. cbn [sleep fst snd db db_faults net clock trace].
  exists d'. eexists. split; [by rewrite <- !(assoc_L (++))|].
  split; [|split; [|exact Hout]].
  - rewrite !approvals_app, approvals_success_events. cbn [approvals omap app].
    by rewrite app_nil_r.
  - intros id request Hr. rewrite (Hdone id request Hr).
    destruct (Hin (id, request) Hr) as [Hlook _]. cbn in Hlook. by rewrite Hlook.
Qed.

Lemma elem_of_pending q r :
  r ∈ pending q ↔ q !! r.1 = Some r.2 ∧ processed r.2 = false.
Proof.
  unfold pending. rewrite list_elem_of_filter. destruct r as [id r]. cbn.
  rewrite elem_of_map_to_list. unfold unprocessed. cbn. tauto.
Qed.

Lemma NoDup_pending q : NoDup (pending q).
Proof. apply NoDup_filter, NoDup_map_to_list. Qed.

Lemma find_unprocessed_count limit q :
  length (find_unprocessed limit q) = (limit `min` length (pending q))%nat.
Proof. unfold find_unprocessed. by rewrite length_take, merge_sort_Permutation. Qed.

(** Marking a batch processed takes exactly the batch out of the pending
    documents. *)
Lemma pending_after_batch q q' batch c :
  NoDup batch.*1 →
  (∀ r, r ∈ batch → r ∈ pending q) →
  (∀ id request, (id, request) ∈ batch → q' !! id = Some (mark_processed c request)) →
  (∀ id, id ∉ batch.*1 → q' !! id = q !! id) →
  pending q ≡ₚ batch ++ pending q'.
Proof.
  intros Hnd Hsub Hdone Hout.
  assert (∀ id r, (id, r) ∈ pending q' → id ∉ batch.*1) as Hfresh.
  { intros id r [Hq' Hp]%elem_of_pending [[id' r0] [Heq Hr0]]%list_elem_of_fmap.
    cbn in *. subst id'. rewrite (Hdone id r0 Hr0) in Hq'. by injection Hq' as <-. }
  apply NoDup_Permutation.
  - apply NoDup_pending.
  - apply NoDup_app. split; [by apply (NoDup_fmap_1 fst)|].
    split; [|apply NoDup_pending].
    intros [id r] Hb Hp. apply (Hfresh id r Hp). by apply (list_elem_of_fmap_2 fst) in Hb.
  - intros [id r]. rewrite elem_of_app. split.
    + intros Hp. destruct (decide (id ∈ batch.*1)) as [Hid|Hid].
      * left. apply list_elem_of_fmap in Hid as [[id' r0] [Heq Hr0]]. cbn in Heq. subst id'.
        pose proof (Hsub _ Hr0) as Hr0'. apply elem_of_pending in Hr0'. apply elem_of_pending in Hp.
        cbn in *. destruct Hp as [Hp _], Hr0' as [Hr0' _].
        rewrite Hp in Hr0'. injection Hr0' as Hrr. subst r0. exact Hr0.
      * right. apply elem_of_pending. apply elem_of_pending in Hp. cbn in *.
        by rewrite (Hout id Hid).
    + intros [Hb|Hp]; [by apply Hsub|].
      pose proof (Hfresh id r Hp) as Hid.
      apply elem_of_pending. apply elem_of_pending in Hp. cbn in *.
      by rewrite <- (Hout id Hid).
Qed.

Lemma approval_of_pending_nil q :
  length (pending q) = 0%nat → ∀ id r, q !! id = Some r → status_of r ≠ Pending.
Proof.
  intros Hlen id r Hq Hp. apply status_of_pending in Hp.
  assert ((id, r) ∈ pending q) as Hin by by apply elem_of_pending.
  apply nil_length_inv in Hlen. rewrite Hlen in Hin. by apply elem_of_nil in Hin.
Qed.

Lemma process_queue_loop_drains k d c t :
  (length (pending (requests_queue d)) ≤ 10 * k)%nat →
  ∃ d' c' evs,
    process_queue_loop k (World (Some d) [] [] c t)
    = (inl tt, World (Some d') [] [] c' (t ++ evs))
    ∧ length (pending (requests_queue d')) = 0%nat
    ∧ approvals evs ≡ₚ approval_of <$> pending (requests_queue d)
    ∧ (∀ id r, requests_queue d !! id = Some r → processed r = true →
               requests_queue d' !! id = Some r).
Proof.
  revert d c t. induction k as [|k IH]; intros d c t Hlen.
  { exists d, c, []. cbn. rewrite app_nil_r. split; [done|].
    assert (length (pending (requests_queue d)) = 0%nat) as H0 by lia.
    split; [done|]. split; [|done].
    apply nil_length_inv in H0. by rewrite H0. }
  cbn [process_queue_loop]. unfold bind.
  destruct (healthy_turn d c t) as (d1 & evs1 & -> & Happ1 & Hdone & Hout).
  pose proof (find_unprocessed_NoDup 10 (requests_queue d)) as Hnd.
  assert (∀ r, r ∈ find_unprocessed 10 (requests_queue d) → r ∈ pending (requests_queue d))
    as Hsub.
  { intros r Hr. apply elem_of_pending. by apply find_unprocessed_elem in Hr. }
  pose proof (pending_after_batch _ _ _ _ Hnd Hsub Hdone Hout) as Hperm.
  assert (length (pending (requests_queue d1)) ≤ 10 * k)%nat as Hlen1.
  { apply Permutation_length in Hperm. rewrite length_app, find_unprocessed_count in Hperm.
    lia. }
  destruct (IH d1 (c + 1) (t ++ evs1) Hlen1) as (d' & c' & evs2 & -> & Hnone & Happ2 & Hkeep).
  exists d', c', (evs1 ++ evs2). split; [by rewrite (assoc_L (++))|].
  split; [done|]. split.
  - rewrite approvals_app, Happ1, Happ2, Hperm. by rewrite fmap_app.
  - intros id r Hq Hp. apply Hkeep; [|done]. rewrite Hout; [done|].
    intros [[id' r0] [Heq Hr0]]%list_elem_of_fmap. cbn in Heq. subst id'.
    apply find_unprocessed_elem in Hr0 as [Hq0 Hp0]. cbn in *. congruence.
Qed.

(** X11.  While the store and Telegram work, the processor drains the
    queue ten requests a turn: after [k] turns started with at most
    [10 * k] pending requests, no request is pending any more, every
    request that was pending has been approved exactly once (the approval
    calls made are, up to their order across turns, one per request that
    was pending), and the documents that were already processed are as they
    were. *)
Theorem healthy_processor_drains_queue (k : nat) (d : database) (c : Z) (t : list event) :
  (length (pending (requests_queue d)) ≤ 10 * k)%nat →
  ∃ evs,
    (process_queue k (World (Some d) [] [] c t)).1 = inl tt
    ∧ trace (process_queue k (World (Some d) [] [] c t)).2 = t ++ evs
    ∧ approvals evs ≡ₚ approval_of <$> pending (requests_queue d)
    ∧ (∀ id r, queue_of (process_queue k (World (Some d) [] [] c t)).2 !! id = Some r →
               status_of r ≠ Pending)
    ∧ (∀ id r, requests_queue d !! id = Some r → status_of r ≠ Pending →
               queue_of (process_queue k (World (Some d) [] [] c t)).2 !! id = Some r).
Proof.
  intros Hlen.
  destruct (process_queue_loop_drains k d c t Hlen)
    as (d' & c' & evs & Hrun & Hnone & Happ & Hkeep).
  assert (process_queue k (World (Some d) [] [] c t)
          = process_queue_loop k (World (Some d) [] [] c t)) as ->.
  { unfold process_queue, bind, connected. cbn [db]. by rewrite bool_decide_eq_true_2 by eauto. }
  rewrite Hrun. exists evs. split; [done|]. split; [done|]. split; [done|]. split.
  - apply approval_of_pending_nil. exact Hnone.
  - intros id r Hq Hp. apply Hkeep; [done|].
    destruct (processed r) eqn:Hpr; [done|]. by apply status_of_pending in Hpr.
Qed.

(** [healthy_processor_drains_queue] for two pending requests and one
    turn. *)
Lemma healthy_processor_drains_queue_witness :
  let d := Database ∅ ∅ []
             {[1%positive := RequestDoc 100 (-1001) 7 "Ann" "Group" false (Some 0) None None None;
               2%positive := RequestDoc 101 (-1001) 8 "Bob" "Group" false (Some 0) None None None]} in
  ∃ evs,
    (process_queue 1 (World (Some d) [] [] 200 [])).1 = inl tt
    ∧ trace (process_queue 1 (World (Some d) [] [] 200 [])).2 = [] ++ evs
    ∧ approvals evs ≡ₚ approval_of <$> pending (requests_queue d)
    ∧ (∀ id r, queue_of (process_queue 1 (World (Some d) [] [] 200 [])).2 !! id = Some r →
               status_of r ≠ Pending)
    ∧ (∀ id r, requests_queue d !! id = Some r → status_of r ≠ Pending →
               queue_of (process_queue 1 (World (Some d) [] [] 200 [])).2 !! id = Some r).
Proof.
  intros d. apply (healthy_processor_drains_queue 1 d 200 []).
  vm_compute. lia.
Defined.

(** ** Progress of a broadcast *)

Lemma progress_updates_app l1 l2 :
  progress_updates (l1 ++ l2) = progress_updates l1 ++ progress_updates l2.
Proof. apply omap_app. Qed.

(** A delivery edits no status message. *)
Lemma copy_message_to_user_progress depth user w :
  (leading_floods (net w) ≤ depth)%nat →
  ∃ ok w' evs,
    copy_message_to_user depth user w = (inl ok, w')
    ∧ trace w' = trace w ++ evs
    ∧ progress_updates evs = []
    ∧ net w' = drop (S (leading_floods (net w))) (net w).
Proof.
  revert w. induction depth as [|depth IH]; intros [d f n c t] Hlen; cbn in Hlen.
  - destruct n as [|[[v| | | |msg]|] n]; cbn in Hlen; try lia;
      first [ by eexists true, _, [_]
            | eexists false, _, [_; _];
              split; [reflexivity|]; cbn; by rewrite <- (assoc_L (++)) ].
  - destruct n as [|[[v| | | |msg]|] n];
      try first [ by eexists true, _, [_]
                | eexists false, _, [_; _];
                  split; [reflexivity|]; cbn; by rewrite <- (assoc_L (++)) ].
    destruct (IH (World d f n (c + Z.max 0 v)
                    ((t ++ [EvCall (CopyTo user) (Some (FloodWait v))]) ++ [EvSleep v])))
      as (ok & w' & evs & Hrun & Ht & Hp & Hn).
    { cbn in *. lia. }
    exists ok, w', (EvCall (CopyTo user) (Some (FloodWait v)) :: EvSleep v :: evs).
    split; [exact Hrun|]. cbn [trace] in Ht.
    split; [by rewrite Ht, <- !(assoc_L (++))|]. by split.
Qed.

Lemma broadcast_to_user_progress depth total s f user w :
  (longest_flood_run (net w) ≤ depth)%nat →
  ∃ (ok : bool) w' evs,
    broadcast_to_user depth total (s, f) user w
    = (inl (if ok then (S s, f) else (s, S f)), w')
    ∧ trace w' = trace w ++ evs
    ∧ progress_updates evs
      = (if bool_decide (S (s + f) `mod` 10 = 0)%nat
         then [(S (s + f), total, if ok then S s else s, if ok then f else S f)]
         else [])
    ∧ (longest_flood_run (net w') ≤ depth)%nat.
Proof.
  intros Hlen.
  destruct (copy_message_to_user_progress depth (row_user_id user) w)
    as (ok & [d1 f1 n1 c1 t1] & evs & Hrun & Ht & Hp & Hn).
  { pose proof (leading_floods_longest (net w)). lia. }
  cbn [trace net] in Ht, Hn. subst t1.
  assert (longest_flood_run n1 ≤ depth)%nat as Hn1.
  { rewrite Hn. pose proof (longest_flood_run_drop (S (leading_floods (net w))) (net w)). lia. }
  clear Hn.
  unfold broadcast_to_user, bind. rewrite Hrun. cbn [fst snd].
  exists ok.
  replace (if ok then (S s, f) else (s, S f))
    with (if ok then S s else s, if ok then f else S f) by (by destruct ok).
  replace ((if ok then S s else s) + (if ok then f else S f))%nat with (S (s + f))
    by (destruct ok; lia).
  case_bool_decide as Hmod.
  - unfold try_except.
    destruct (telegram_spec (EditText (Broadcasting (S (s + f)) total (if ok then S s else s)
                                                    (if ok then f else S f)))
                (World d1 f1 n1 c1 (trace w ++ evs))) as [a ->].
    pose proof (longest_flood_run_tail n1).
    destruct a as [e|]; cbn; eexists _, (evs ++ [_]);
      (split; [done|]); (split; [by rewrite (assoc_L (++))|]);
      (split; [by rewrite progress_updates_app, Hp|cbn [net]; lia]).
  - cbn. eexists _, evs. by rewrite Hp.
Qed.

Lemma broadcast_users_progress depth total users s f w :
  (longest_flood_run (net w) ≤ depth)%nat →
  ∃ w' evs s' f',
    for_fold users (broadcast_to_user depth total) (s, f) w = (inl (s', f'), w')
    ∧ trace w' = trace w ++ evs
    ∧ shown_processed <$> progress_updates evs
      = filter (λ p, p `mod` 10 = 0)%nat (seq (S (s + f)) (length users))
    ∧ Forall (consistent_progress total) (progress_updates evs).
Proof.
  revert s f w. induction users as [|user users IH]; intros s f w Hlen.
  { exists w, [], s, f. cbn. by rewrite app_nil_r. }
  destruct (broadcast_to_user_progress depth total s f user w Hlen)
    as (ok & w1 & evs1 & Hrun & Ht1 & Hp1 & Hlen1).
  cbn [for_fold]. unfold bind. rewrite Hrun.
  assert (∃ s1 f1, (if ok then (S s, f) else (s, S f)) = (s1, f1)
                   ∧ (s1 + f1 = S (s + f))%nat
                   ∧ progress_updates evs1
                     = if bool_decide (S (s + f) `mod` 10 = 0)%nat
                       then [(S (s + f), total, s1, f1)] else [])
    as (s1 & f1 & -> & Hsum & Hp1').
  { destruct ok; eexists _, _; (split; [done|]); (split; [lia|done]). }
  destruct (IH s1 f1 w1 Hlen1) as (w' & evs & s' & f' & -> & Ht & Hp & Hc).
  exists w', (evs1 ++ evs), s', f'.
  split; [done|]. split; [by rewrite Ht, Ht1, (assoc_L (++))|].
  rewrite progress_updates_app, fmap_app, Hp, Hsum, Hp1'.
  cbn [length seq]. rewrite filter_cons.
  split.
  - destruct (decide (S (s + f) `mod` 10 = 0)%nat) as [Hm|Hm].
    + by rewrite bool_decide_eq_true_2 by done.
    + by rewrite bool_decide_eq_false_2 by done.
  - apply Forall_app. split; [|done].
    case_bool_decide; [|done]. apply Forall_singleton. by split.
Qed.

(** X12.  Within the room the recursion limit leaves for the retries of a
    delivery (no more rate-limit signals in a row than nested calls fit), a
    broadcast shows its progress after every tenth recipient and at no
    other time: the progress texts it puts into the status message show as
    processed the multiples of ten up to the number of recipients, in order
    (none for fewer than ten recipients), each with the total of the
    broadcast and with counters of successful and failed deliveries that add
    up to the number processed; this holds whether or not the edits of the
    status message fail, and the loop does not raise. *)
Theorem broadcast_progress_every_tenth_recipient (depth : nat) (users : list user_row)
    (w : world) :
  (longest_flood_run (net w) ≤ depth)%nat →
  ∃ evs counters,
    (broadcast_chunks depth users (0, 0)%nat w).1 = inl counters
    ∧ trace (broadcast_chunks depth users (0, 0)%nat w).2 = trace w ++ evs
    ∧ shown_processed <$> progress_updates evs
      = filter (λ p, p `mod` 10 = 0)%nat (seq 1 (length users))
    ∧ Forall (consistent_progress (length users)) (progress_updates evs).
Proof.
  intros Hlen. rewrite broadcast_chunks_flat.
  destruct (broadcast_users_progress depth (length users) users 0 0 w Hlen)
    as (w' & evs & s' & f' & -> & Ht & Hp & Hc).
  by exists evs, (s', f').
Qed.

(** [broadcast_progress_every_tenth_recipient] for twelve recipients, the
    first of them rate-limited twice, with room for two nested calls. *)
Lemma broadcast_progress_every_tenth_recipient_witness :
  let users := (λ k, UserRow (Z.of_nat k) "user" None) <$> seq 1 12 in
  let w := World None [] [Some (FloodWait 1); Some (FloodWait 1); None;
                          Some UserDeactivated] 0 [] in
  ∃ evs counters,
    (broadcast_chunks 2 users (0, 0)%nat w).1 = inl counters
    ∧ trace (broadcast_chunks 2 users (0, 0)%nat w).2 = trace w ++ evs
    ∧ shown_processed <$> progress_updates evs
      = filter (λ p, p `mod` 10 = 0)%nat (seq 1 (length users))
    ∧ Forall (consistent_progress (length users)) (progress_updates evs).
Proof.
  intros users w. apply (broadcast_progress_every_tenth_recipient 2 users w).
  vm_compute. lia.
Defined.

(** ** The worker and the store *)

(** X13.  The store never changes what the approval worker does towards
    Telegram: started with the same answers to come, two invocations return
    the same result (or raise the same exception) and make the same calls
    and sleeps, whether the database is connected or not, whatever it holds
    and whichever of its operations fail; a failing statistics update or
    user save is only logged. *)
Theorem store_failures_never_change_an_approval
    (chat user : Z) (first_name title : string) (w1 w2 : world) :
  net w1 = net w2 →
  ∃ evs1 evs2,
    (approve_single_request chat user first_name title w1).1
    = (approve_single_request chat user first_name title w2).1
    ∧ trace (approve_single_request chat user first_name title w1).2 = trace w1 ++ evs1
    ∧ trace (approve_single_request chat user first_name title w2).2 = trace w2 ++ evs2
    ∧ effects evs1 = effects evs2.
Proof.
  intros Hnet.
  destruct (approve_single_request_view chat user first_name title w1)
    as (w1' & evs1 & -> & _ & Ht1 & He1 & _).
  destruct (approve_single_request_view chat user first_name title w2)
    as (w2' & evs2 & -> & _ & Ht2 & He2 & _).
  exists evs1, evs2. cbn [fst snd]. rewrite Hnet, He1, He2, Hnet. by auto.
Qed.

(** [store_failures_never_change_an_approval] for an approval that is
    rate-limited once, without a database and with a database whose
    operations fail. *)
Lemma store_failures_never_change_an_approval_witness :
  let w1 := World None [] [Some (FloodWait 5)] 0 [] in
  let w2 := World (Some (Database ∅ ∅ [] ∅)) [true; true] [Some (FloodWait 5)] 7 [] in
  ∃ evs1 evs2,
    (approve_single_request (-1001) 7 "Ann" "Group" w1).1
    = (approve_single_request (-1001) 7 "Ann" "Group" w2).1
    ∧ trace (approve_single_request (-1001) 7 "Ann" "Group" w1).2 = trace w1 ++ evs1
    ∧ trace (approve_single_request (-1001) 7 "Ann" "Group" w2).2 = trace w2 ++ evs2
    ∧ effects evs1 = effects evs2.
Proof.
  intros w1 w2.
  apply (store_failures_never_change_an_approval (-1001) 7 "Ann" "Group" w1 w2).
  reflexivity.
Defined.
